(** * Production service worker: request router, fetch policies, cache maintainer

    A shallow embedding of [src/production/ProductionServiceWorker.js].

    Asynchronous functions become computations in a small state-and-exception
    monad over a [World] that holds what the worker shares with its host: the
    Cache Storage partitions, the wall clock read by [Date.now()], the network
    reached by [fetch], the console, and the queue of calls that were started
    without [await].  A handler is run to completion as one task; a call that
    the source does not await is queued as a [Detached] task whose body runs
    later, in whatever world the scheduler picks.

    Numbers are integers ([Z]): every number the worker manipulates is an
    epoch-millisecond count or a quotient of one.  Response headers are
    assumed writable, as they are in the repository's own mock. *)

From Stdlib Require Import Ascii.
From stdpp Require Import gmap strings pretty list.

Open Scope string_scope.
Open Scope list_scope.
Open Scope Z_scope.

(** ** Host primitives on strings and numbers *)

Module JS.

(** [hay.includes(needle)] *)
Fixpoint includes (hay needle : string) : bool :=
  String.prefix needle hay ||
  match hay with
  | EmptyString => false
  | String _ rest => includes rest needle
  end.

(** [s.endsWith(suffix)] *)
Fixpoint endsWith (s suffix : string) : bool :=
  String.eqb s suffix ||
  match s with
  | EmptyString => false
  | String _ rest => endsWith rest suffix
  end.

(** [n.toString()] and template interpolation of an integer. *)
Definition toString (n : Z) : string := pretty n.

(** A string is falsy exactly when it is empty. *)
Definition truthy (s : string) : bool :=
  match s with EmptyString => false | _ => true end.

Definition is_space (a : ascii) : bool :=
  let n := nat_of_ascii a in
  bool_decide (n = 32 ∨ (9 ≤ n ∧ n ≤ 13))%nat.

Fixpoint trimStart (s : string) : string :=
  match s with
  | String a rest => if is_space a then trimStart rest else s
  | EmptyString => EmptyString
  end.

Definition digit (radix : Z) (a : ascii) : option Z :=
  let n := Z.of_nat (nat_of_ascii a) in
  let v := if bool_decide (48 ≤ n ≤ 57) then Some (n - 48)
           else if bool_decide (97 ≤ n ≤ 122) then Some (n - 87)
           else if bool_decide (65 ≤ n ≤ 90) then Some (n - 55)
           else None in
  match v with
  | Some d => if bool_decide (d < radix) then Some d else None
  | None => None
  end.

(** Longest prefix of digits; [None] when there is none (NaN). *)
Fixpoint digits (radix : Z) (acc : option Z) (s : string) : option Z :=
  match s with
  | EmptyString => acc
  | String a rest =>
      match digit radix a with
      | Some d => digits radix (Some (radix * default 0 acc + d)) rest
      | None => acc
      end
  end.

(** [parseInt(s)] without a radix; [None] stands for NaN. *)
Definition parseInt (s : string) : option Z :=
  let s := trimStart s in
  let '(sign, s) :=
    match s with
    | String "-" rest => (-1, rest)
    | String "+" rest => (1, rest)
    | _ => (1, s)
    end in
  let '(radix, s) :=
    match s with
    | String "0" (String "x" rest) => (16, rest)
    | String "0" (String "X" rest) => (16, rest)
    | _ => (10, s)
    end in
  Z.mul sign <$> digits radix None s.

(** [a - parseInt(s) > limit]; a comparison with NaN is false. *)
Definition olderThan (now : Z) (stamp : string) (limit : Z) : bool :=
  match parseInt stamp with
  | Some t => bool_decide (now - t > limit)
  | None => false
  end.

End JS.

(** ** URLs

    [new URL(href)] for the serialised absolute URLs a fetch event carries:
    [scheme://authority/path?query#fragment]. *)

Module Url.

Record t := mk { origin : string; pathname : string; search : string; hash : string }.

(** Splits [s] before the first character satisfying [stop]. *)
Fixpoint break (stop : ascii -> bool) (s : string) : string * string :=
  match s with
  | EmptyString => (EmptyString, EmptyString)
  | String a rest =>
      if stop a then (EmptyString, s)
      else let '(l, r) := break stop rest in (String a l, r)
  end.

Definition is_one_of (cs : list ascii) (a : ascii) : bool :=
  bool_decide (a ∈ cs).

Definition parse (href : string) : option t :=
  let '(scheme, rest) := break (is_one_of [":"%char]) href in
  match rest with
  | String ":" (String "/" (String "/" rest)) =>
      let '(authority, rest) := break (is_one_of ["/"; "?"; "#"]%char) rest in
      let '(path, rest) := break (is_one_of ["?"; "#"]%char) rest in
      let '(query, fragment) := break (is_one_of ["#"%char]) rest in
      Some {| origin := scheme +:+ "://" +:+ authority;
              pathname := path; search := query; hash := fragment |}
  | _ => None
  end.

(** The query string proper: [search] without its leading question mark. *)
Definition query (u : t) : string :=
  match search u with
  | String "?" q => q
  | s => s
  end.

End Url.

(** ** Requests and the router *)

Record Request := mkRequest { method : string; url : string }.

Inductive Policy :=
| NetworkFirstWithCacheBust
| CacheFirstWithSignature
| StaleWhileRevalidateWithBypass
| DefaultStaleWhileRevalidate.

#[global] Instance Policy_eq_dec : EqDecision Policy.
Proof. solve_decision. Defined.

(** What the fetch listener does with an event: return without answering
    (the host handles the request), answer with one policy's handler, or
    fail while constructing the URL. *)
Inductive Dispatch :=
| NotIntercepted
| RespondWith (p : Policy)
| ListenerThrows.

(** The branch structure of the fetch event listener. *)
Definition route (location_origin : string) (request : Request) : Dispatch :=
  match Url.parse (url request) with
  | None => ListenerThrows
  | Some u =>
      if negb (String.eqb (method request) "GET") then NotIntercepted
      else if negb (String.eqb (Url.origin u) location_origin) then NotIntercepted
      else if JS.includes (url request) "/api/" then
        RespondWith NetworkFirstWithCacheBust
      else if JS.includes (url request) "/assets/"
              || JS.includes (url request) ".js"
              || JS.includes (url request) ".css" then
        RespondWith CacheFirstWithSignature
      else if JS.includes (url request) "?v="
              || JS.includes (url request) "?cb="
              || JS.includes (url request) "?h=" then
        RespondWith StaleWhileRevalidateWithBypass
      else RespondWith DefaultStaleWhileRevalidate
  end.

(** The classification rules as the specification words them: tests on the
    URL's path and on its query string. *)
Definition spec_classify (u : Url.t) : Policy :=
  if JS.includes (Url.pathname u) "/api/" then NetworkFirstWithCacheBust
  else if JS.includes (Url.pathname u) "/assets/"
          || JS.endsWith (Url.pathname u) ".js"
          || JS.endsWith (Url.pathname u) ".css" then CacheFirstWithSignature
  else if JS.includes (Url.query u) "v="
          || JS.includes (Url.query u) "cb="
          || JS.includes (Url.query u) "h=" then StaleWhileRevalidateWithBypass
  else DefaultStaleWhileRevalidate.

(** ** Responses *)

Record Response := mkResponse {
  status : Z;
  body : string;
  headers : gmap string string
}.

(** [response.ok]: the status is in the range 200-299. *)
Definition ok (r : Response) : bool :=
  bool_decide (200 ≤ status r ≤ 299).

(** [response.headers.get(name)] *)
Definition headers_get (name : string) (r : Response) : option string :=
  headers r !! name.

(** [response.headers.set(name, value)] *)
Definition headers_set (name value : string) (r : Response) : Response :=
  {| status := status r; body := body r;
     headers := <[name := value]> (headers r) |}.

(** ** Configuration *)

Definition CACHE_VERSION : string := "v1.0.0".
Definition STATIC_CACHE_NAME : string := "static-" +:+ CACHE_VERSION.
Definition DYNAMIC_CACHE_NAME : string := "dynamic-" +:+ CACHE_VERSION.
Definition API_CACHE_NAME : string := "api-" +:+ CACHE_VERSION.

Definition maxCacheAge : Z := 24 * 60 * 60 * 1000.
Definition staleWhileRevalidateTime : Z := 5 * 60 * 1000.

(** ** The world of the worker *)

Inductive CacheOp := OpMatch | OpPut | OpDelete.

Inductive JsError :=
| NetworkError (reason : string)
| StoreError (op : CacheOp) (cacheName key : string)
| TypeError (what : string).

Inductive FetchResult :=
| Resolves (r : Response)
| Rejects (e : JsError).

(** An outgoing [fetch(request, init)]. *)
Record FetchCall := mkFetchCall {
  fetch_url : string;
  fetch_cache_mode : option string;
  fetch_headers : gmap string string
}.

(** A call made without [await]: which function, on which request and
    which cache. *)
Inductive Detached :=
| RefreshCacheInBackground (request : Request) (cache : string)
| UpdateCacheInBackgroundWithConditionalBypass (request : Request) (cache : string)
| UpdateCacheInBackground (request : Request) (cache : string).

(** A partition maps request URLs to responses and enumerates them in
    insertion order; Cache Storage maps names to partitions likewise. *)
Abbreviation Cache := (list (string * Response)).
Abbreviation CacheStorage := (list (string * list (string * Response))).

Record World := mkWorld {
  caches : CacheStorage;
  (** [Date.now()] returns [clock ticks] and advances [ticks]. *)
  clock : nat → Z;
  ticks : nat;
  (** The n-th [fetch] issued settles as [network n]. *)
  network : nat → FetchResult;
  fetches : list FetchCall;
  (** Whether an operation on one entry of one partition rejects. *)
  store_fault : CacheOp → string → string → bool;
  detached : list Detached;
  console : list string
}.

Definition with_caches (f : CacheStorage → CacheStorage) (w : World) : World :=
  mkWorld (f (caches w)) (clock w) (ticks w) (network w) (fetches w)
          (store_fault w) (detached w) (console w).

(** ** Association lists *)

Fixpoint alist_lookup {V} (k : string) (l : list (string * V)) : option V :=
  match l with
  | [] => None
  | (k', v) :: rest => if decide (k' = k) then Some v else alist_lookup k rest
  end.

Definition alist_delete {V} (k : string) (l : list (string * V)) : list (string * V) :=
  filter (λ p, p.1 ≠ k) l.

(** Writing a key drops the entry it had and appends the new one. *)
Definition alist_put {V} (k : string) (v : V) (l : list (string * V)) : list (string * V) :=
  alist_delete k l ++ [(k, v)].

(** Applies [f] to the partition called [name]. *)
Definition in_cache (name : string) (f : Cache → Cache) (cs : CacheStorage) : CacheStorage :=
  (λ p, if decide (p.1 = name) then (p.1, f p.2) else p) <$> cs.

(** The entry stored for [key] in the partition [name], if any. *)
Definition entry (name key : string) (cs : CacheStorage) : option Response :=
  alist_lookup name cs ≫= alist_lookup key.

(** ** The task monad: state plus exceptions *)

Inductive Completion (A : Type) :=
| Normal (a : A)
| Throws (e : JsError).
Arguments Normal {A} a.
Arguments Throws {A} e.

Definition Task (A : Type) : Type := World → Completion A * World.

Definition ret {A} (a : A) : Task A := λ w, (Normal a, w).

Definition throw {A} (e : JsError) : Task A := λ w, (Throws e, w).

Definition bind {A B} (m : Task A) (k : A → Task B) : Task B :=
  λ w, match m w with
       | (Normal a, w') => k a w'
       | (Throws e, w') => (Throws e, w')
       end.

(** [try { body } catch (error) { handler }] *)
Definition try_catch {A} (body : Task A) (handler : JsError → Task A) : Task A :=
  λ w, match body w with
       | (Normal a, w') => (Normal a, w')
       | (Throws e, w') => handler e w'
       end.

Notation "'let*' x ':=' m 'in' k" := (bind m (λ x, k))
  (at level 10, x name, m at level 100, k at level 200,
   format "'[v' 'let*'  x  ':='  m  'in' '/' k ']'").
Notation "m ';;' k" := (bind m (λ _, k))
  (at level 100, k at level 200, right associativity, only parsing).

(** [for (const x of xs) { body }] *)
Fixpoint for_of {A} (xs : list A) (body : A → Task unit) : Task unit :=
  match xs with
  | [] => ret tt
  | x :: rest => body x;; for_of rest body
  end.

(** ** Host operations *)

(** [Date.now()] *)
Definition date_now : Task Z :=
  λ w, (Normal (clock w (ticks w)),
        mkWorld (caches w) (clock w) (S (ticks w)) (network w) (fetches w)
                (store_fault w) (detached w) (console w)).

(** [await fetch(request, init)] *)
Definition fetch (request : Request) (mode : option string)
    (hdrs : gmap string string) : Task Response :=
  λ w, let w' := mkWorld (caches w) (clock w) (ticks w) (network w)
                   (fetches w ++ [mkFetchCall (url request) mode hdrs])
                   (store_fault w) (detached w) (console w) in
       match network w (length (fetches w)) with
       | Resolves r => (Normal r, w')
       | Rejects e => (Throws e, w')
       end.

(** [console.warn(message, error)] *)
Definition console_warn (message : string) : Task unit :=
  λ w, (Normal tt,
        mkWorld (caches w) (clock w) (ticks w) (network w) (fetches w)
                (store_fault w) (detached w) (console w ++ [message])).

(** A call whose promise is dropped: the callee runs as a task of its own. *)
Definition detach (t : Detached) : Task unit :=
  λ w, (Normal tt,
        mkWorld (caches w) (clock w) (ticks w) (network w) (fetches w)
                (store_fault w) (detached w ++ [t]) (console w)).

(** [await caches.open(name)]: the partition is created when it is missing. *)
Definition caches_open (name : string) : Task string :=
  λ w, match alist_lookup name (caches w) with
       | Some _ => (Normal name, w)
       | None => (Normal name, with_caches (λ cs, cs ++ [(name, [])]) w)
       end.

(** [await caches.keys()] *)
Definition caches_keys : Task (list string) :=
  λ w, (Normal ((caches w).*1), w).

(** [await cache.keys()]: the stored requests, all of them GET. *)
Definition cache_keys (cache : string) : Task (list Request) :=
  λ w, (Normal (mkRequest "GET" <$> (default [] (alist_lookup cache (caches w))).*1), w).

(** [await cache.match(key)] *)
Definition cache_match (cache key : string) : Task (option Response) :=
  λ w, if store_fault w OpMatch cache key
       then (Throws (StoreError OpMatch cache key), w)
       else (Normal (entry cache key (caches w)), w).

(** [await cache.put(key, response)] *)
Definition cache_put (cache key : string) (r : Response) : Task unit :=
  λ w, if store_fault w OpPut cache key
       then (Throws (StoreError OpPut cache key), w)
       else (Normal tt, with_caches (in_cache cache (alist_put key r)) w).

(** [cache.put(key, response)] with the promise dropped: a rejection
    reaches nobody. *)
Definition cache_put_unawaited (cache key : string) (r : Response) : Task unit :=
  try_catch (cache_put cache key r) (λ _, ret tt).

(** [await cache.delete(key)] *)
Definition cache_delete (cache key : string) : Task bool :=
  λ w, if store_fault w OpDelete cache key
       then (Throws (StoreError OpDelete cache key), w)
       else (Normal (bool_decide (is_Some (entry cache key (caches w)))),
             with_caches (in_cache cache (alist_delete key)) w).

(** ** Cache busting helpers *)

(** The signature of a URL: the URL and the current five-minute bucket. *)
Definition generateSignature (url : string) : Task string :=
  let* now := date_now in
  ret (url +:+ "_" +:+ JS.toString (now `div` (5 * 60 * 1000))).

Definition shouldInvalidateCache (request : Request) (cachedResponse : Response)
    : Task bool :=
  let cachedSignature := headers_get "X-Signature" cachedResponse in
  let* currentSignature := generateSignature (url request) in
  ret (bool_decide (cachedSignature ≠ Some currentSignature)).

(** The test [stamp && (Date.now() - parseInt(stamp)) > limit] that the API
    fallback, the default policy and the age sweep all make; the clock is
    read only when the header is present and not empty. *)
Definition timestampOlderThan (stamp : option string) (limit : Z) : Task bool :=
  match stamp with
  | Some ts =>
      if JS.truthy ts then
        let* now := date_now in ret (JS.olderThan now ts limit)
      else ret false
  | None => ret false
  end.

Definition no_cache_headers : list (string * string) :=
  [("Cache-Control", "no-cache, no-store, must-revalidate"); ("Pragma", "no-cache")].

(** ** Detached refreshes *)

Definition refreshCacheInBackground (request : Request) (cache : string) : Task unit :=
  try_catch
    (let* networkResponse :=
       fetch request (Some "no-cache") (list_to_map no_cache_headers) in
     if ok networkResponse then
       let* now := date_now in
       cache_put_unawaited cache (url request)
         (headers_set "X-Cache-Timestamp" (JS.toString now) networkResponse)
     else ret tt)
    (λ error, console_warn "Background cache refresh failed:").

Definition updateCacheInBackgroundWithConditionalBypass (request : Request)
    (cache : string) : Task unit :=
  try_catch
    (let* bust := date_now in
     let* networkResponse :=
       fetch request (Some "no-cache")
         (list_to_map (no_cache_headers ++
            [("X-Conditional-Bypass", "true"); ("X-Cache-Bust", JS.toString bust)])) in
     if ok networkResponse then
       let* now := date_now in
       cache_put_unawaited cache (url request)
         (headers_set "X-Conditional-Bypass" "true"
            (headers_set "X-Cache-Timestamp" (JS.toString now) networkResponse))
     else ret tt)
    (λ error, console_warn "Background cache update with conditional bypass failed:").

Definition updateCacheInBackground (request : Request) (cache : string) : Task unit :=
  try_catch
    (let* networkResponse := fetch request None ∅ in
     if ok networkResponse then
       let* now := date_now in
       cache_put_unawaited cache (url request)
         (headers_set "X-Cache-Timestamp" (JS.toString now) networkResponse)
     else ret tt)
    (λ error, console_warn "Background cache update failed:").

(** Runs the body of a queued call. *)
Definition run_detached (t : Detached) : Task unit :=
  match t with
  | RefreshCacheInBackground request cache =>
      refreshCacheInBackground request cache
  | UpdateCacheInBackgroundWithConditionalBypass request cache =>
      updateCacheInBackgroundWithConditionalBypass request cache
  | UpdateCacheInBackground request cache =>
      updateCacheInBackground request cache
  end.

(** ** The four fetch policies *)

Definition handleApiRequestWithCacheBusting (request : Request) : Task Response :=
  let* cache := caches_open API_CACHE_NAME in
  try_catch
    (let* bust := date_now in
     let* networkResponse :=
       fetch request (Some "no-cache")
         (list_to_map (no_cache_headers ++ [("X-Cache-Bust", JS.toString bust)])) in
     (if ok networkResponse then
        let* now := date_now in
        cache_put_unawaited cache (url request)
          (headers_set "X-Cache-Timestamp" (JS.toString now) networkResponse)
      else ret tt);;
     ret networkResponse)
    (λ error,
       let* cachedResponse := cache_match cache (url request) in
       match cachedResponse with
       | Some cachedResponse =>
           let* stale :=
             timestampOlderThan (headers_get "X-Cache-Timestamp" cachedResponse)
               maxCacheAge in
           (if stale then detach (RefreshCacheInBackground request cache)
            else ret tt);;
           ret cachedResponse
       | None => throw error
       end).

Definition handleAssetRequestWithSignatureInvalidation (request : Request)
    : Task Response :=
  let* cache := caches_open STATIC_CACHE_NAME in
  let* cachedResponse := cache_match cache (url request) in
  let fromNetwork : Task Response :=
    try_catch
      (let* signature := generateSignature (url request) in
       let* networkResponse :=
         fetch request (Some "no-cache")
           (list_to_map (no_cache_headers ++ [("X-Signature", signature)])) in
       (if ok networkResponse then
          let* signature := generateSignature (url request) in
          let* now := date_now in
          cache_put_unawaited cache (url request)
            (headers_set "X-Cache-Timestamp" (JS.toString now)
               (headers_set "X-Signature" signature networkResponse))
        else ret tt);;
       ret networkResponse)
      (λ error,
         match cachedResponse with
         | Some cachedResponse => ret cachedResponse
         | None => throw error
         end) in
  match cachedResponse with
  | Some cached =>
      let* shouldInvalidate := shouldInvalidateCache request cached in
      if negb shouldInvalidate then ret cached else fromNetwork
  | None => fromNetwork
  end.

Definition handleVersionedRequestWithConditionalBypass (request : Request)
    : Task Response :=
  let* cache := caches_open DYNAMIC_CACHE_NAME in
  let* cachedResponse := cache_match cache (url request) in
  match cachedResponse with
  | Some cachedResponse =>
      detach (UpdateCacheInBackgroundWithConditionalBypass request cache);;
      ret cachedResponse
  | None =>
      try_catch
        (let* bust := date_now in
         let* networkResponse :=
           fetch request (Some "no-cache")
             (list_to_map (no_cache_headers ++
                [("X-Conditional-Bypass", "true"); ("X-Cache-Bust", JS.toString bust)])) in
         (if ok networkResponse then
            let* now := date_now in
            cache_put_unawaited cache (url request)
              (headers_set "X-Conditional-Bypass" "true"
                 (headers_set "X-Cache-Timestamp" (JS.toString now) networkResponse))
          else ret tt);;
         ret networkResponse)
        (λ error, throw error)
  end.

Definition handleDefaultRequestWithStaleWhileRevalidate (request : Request)
    : Task Response :=
  let* cache := caches_open STATIC_CACHE_NAME in
  let* cachedResponse := cache_match cache (url request) in
  match cachedResponse with
  | Some cachedResponse =>
      let* isStale :=
        timestampOlderThan (headers_get "X-Cache-Timestamp" cachedResponse)
          staleWhileRevalidateTime in
      (if isStale then detach (UpdateCacheInBackground request cache) else ret tt);;
      ret cachedResponse
  | None =>
      try_catch
        (let* networkResponse := fetch request None ∅ in
         (if ok networkResponse then
            let* now := date_now in
            cache_put_unawaited cache (url request)
              (headers_set "X-Cache-Timestamp" (JS.toString now) networkResponse)
          else ret tt);;
         ret networkResponse)
        (λ error, throw error)
  end.

(** The handler a policy names. *)
Definition handler (p : Policy) : Request → Task Response :=
  match p with
  | NetworkFirstWithCacheBust => handleApiRequestWithCacheBusting
  | CacheFirstWithSignature => handleAssetRequestWithSignatureInvalidation
  | StaleWhileRevalidateWithBypass => handleVersionedRequestWithConditionalBypass
  | DefaultStaleWhileRevalidate => handleDefaultRequestWithStaleWhileRevalidate
  end.

(** ** The cache maintainer *)

Definition performPeriodicCacheInvalidation : Task unit :=
  try_catch
    (let* cacheNames := caches_keys in
     for_of cacheNames (λ cacheName,
       let* cache := caches_open cacheName in
       let* keys := cache_keys cache in
       for_of keys (λ request,
         let* response := cache_match cache (url request) in
         match response with
         | None => throw (TypeError "response is undefined")
         | Some response =>
             let* expired :=
               timestampOlderThan (headers_get "X-Cache-Timestamp" response)
                 maxCacheAge in
             if expired then cache_delete cache (url request);; ret tt
             else ret tt
         end)))
    (λ error, console_warn "Periodic cache invalidation failed:").

Definition performPeriodicSignatureInvalidation : Task unit :=
  try_catch
    (let* cacheNames := caches_keys in
     for_of cacheNames (λ cacheName,
       let* cache := caches_open cacheName in
       let* keys := cache_keys cache in
       for_of keys (λ request,
         let* response := cache_match cache (url request) in
         match response with
         | None => throw (TypeError "response is undefined")
         | Some response =>
             let cachedSignature := headers_get "X-Signature" response in
             let* currentSignature := generateSignature (url request) in
             match cachedSignature with
             | Some sig =>
                 if JS.truthy sig && bool_decide (sig ≠ currentSignature)
                 then cache_delete cache (url request);; ret tt
                 else ret tt
             | None => ret tt
             end
         end)))
    (λ error, console_warn "Periodic signature invalidation failed:").

(** ** Control-channel operations *)

Definition invalidateCache (url : string) : Task unit :=
  let* cacheNames := caches_keys in
  for_of cacheNames (λ cacheName,
    let* cache := caches_open cacheName in
    cache_delete cache url;; ret tt).

Definition updateCacheSignatures (signatures : gmap string string) : Task unit :=
  let* cacheNames := caches_keys in
  for_of cacheNames (λ cacheName,
    let* cache := caches_open cacheName in
    let* keys := cache_keys cache in
    for_of keys (λ request,
      let* response := cache_match cache (url request) in
      match response with
      | Some response =>
          let* signature :=
            match signatures !! url request with
            | Some supplied =>
                if JS.truthy supplied then ret supplied
                else generateSignature (url request)
            | None => generateSignature (url request)
            end in
          let* now := date_now in
          cache_put cache (url request)
            (headers_set "X-Cache-Timestamp" (JS.toString now)
               (headers_set "X-Signature" signature response))
      | None => ret tt
      end)).

(** [await caches.delete(name)] *)
Definition caches_delete (name : string) : Task bool :=
  λ w, (Normal (bool_decide (is_Some (alist_lookup name (caches w)))),
        with_caches (alist_delete name) w).

(** Per partition: its size and the URLs of its keys. *)
Definition getCacheInfo : Task (list (string * (nat * list string))) :=
  let* cacheNames := caches_keys in
  let fix collect (names : list string) : Task (list (string * (nat * list string))) :=
    match names with
    | [] => ret []
    | cacheName :: rest =>
        let* cache := caches_open cacheName in
        let* keys := cache_keys cache in
        let* info := collect rest in
        ret (alist_put cacheName (length keys, url <$> keys) info)
    end in
  collect cacheNames.

Definition clearAllCaches : Task unit :=
  let* cacheNames := caches_keys in
  for_of cacheNames (λ cacheName, caches_delete cacheName;; ret tt).

Inductive Message :=
| SKIP_WAITING
| GET_CACHE_INFO
| CLEAR_CACHES
| INVALIDATE_CACHE (url : string)
| UPDATE_CACHE_SIGNATURES (signatures : gmap string string)
| OTHER (type : string).

Inductive Reply :=
| CACHE_INFO (data : list (string * (nat * list string)))
| CACHES_CLEARED
| CACHE_INVALIDATED (url : string)
| CACHE_SIGNATURES_UPDATED.

(** The message listener: the reply is posted when the operation's promise
    fulfils; nothing is posted when it rejects, nor for the other types. *)
Definition on_message (m : Message) : Task (option Reply) :=
  match m with
  | SKIP_WAITING => ret None
  | GET_CACHE_INFO =>
      try_catch (let* info := getCacheInfo in ret (Some (CACHE_INFO info)))
                (λ _, ret None)
  | CLEAR_CACHES =>
      try_catch (clearAllCaches;; ret (Some CACHES_CLEARED)) (λ _, ret None)
  | INVALIDATE_CACHE url =>
      try_catch (invalidateCache url;; ret (Some (CACHE_INVALIDATED url)))
                (λ _, ret None)
  | UPDATE_CACHE_SIGNATURES signatures =>
      try_catch (updateCacheSignatures signatures;; ret (Some CACHE_SIGNATURES_UPDATED))
                (λ _, ret None)
  | OTHER _ => ret None
  end.

(** ** Vocabulary of the properties *)

(** No operation on any entry of any partition rejects. *)
Definition healthy (w : World) : Prop :=
  ∀ op cache key, store_fault w op cache key = false.

(** Every stored response is an ok response. *)
Definition all_ok (cs : CacheStorage) : Prop :=
  ∀ name key r, entry name key cs = Some r → ok r = true.

(** One task of the fetch path: a policy handling a request, or a queued
    refresh running. *)
Inductive Activity :=
| Handling (p : Policy) (request : Request)
| Refreshing (t : Detached).

(** The world an activity leaves behind. *)
Definition after (a : Activity) (w : World) : World :=
  match a with
  | Handling p request => (handler p request w).2
  | Refreshing t => (run_detached t w).2
  end.

(** Whether the age of a stored response, read at time [now], exceeds
    [limit]; a response without a numeric timestamp has no age. *)
Definition age_exceeds (now limit : Z) (r : Response) : bool :=
  match headers_get "X-Cache-Timestamp" r ≫= JS.parseInt with
  | Some t => bool_decide (now - t > limit)
  | None => false
  end.

(** Partition names are distinct, and so are the keys of each partition. *)
Definition wf (cs : CacheStorage) : Prop :=
  NoDup cs.*1 ∧ ∀ name es, alist_lookup name cs = Some es → NoDup es.*1.

(** The clock reads [T] whenever it is read. *)
Definition clock_reads (T : Z) (w : World) : Prop := ∀ n, clock w n = T.

(** The walk both sweeps and the signature update make: every partition,
    every key of the partition as listed when the partition is reached. *)
Definition walk (body : string → Request → Task unit) : Task unit :=
  let* cacheNames := caches_keys in
  for_of cacheNames (λ cacheName,
    let* cache := caches_open cacheName in
    let* keys := cache_keys cache in
    for_of keys (body cache)).

(** The loop bodies of the age sweep, the signature sweep and the signature
    update, named. *)
Definition expire_entry (cache : string) (request : Request) : Task unit :=
  let* response := cache_match cache (url request) in
  match response with
  | None => throw (TypeError "response is undefined")
  | Some response =>
      let* expired :=
        timestampOlderThan (headers_get "X-Cache-Timestamp" response)
          maxCacheAge in
      if expired then cache_delete cache (url request);; ret tt
      else ret tt
  end.


(** The signature at time [T]. *)
Definition signature_at (T : Z) (url : string) : string :=
  url +:+ "_" +:+ JS.toString (T `div` (5 * 60 * 1000)).

Definition retire_entry (cache : string) (request : Request) : Task unit :=
  let* response := cache_match cache (url request) in
  match response with
  | None => throw (TypeError "response is undefined")
  | Some response =>
      let cachedSignature := headers_get "X-Signature" response in
      let* currentSignature := generateSignature (url request) in
      match cachedSignature with
      | Some sig =>
          if JS.truthy sig && bool_decide (sig ≠ currentSignature)
          then cache_delete cache (url request);; ret tt
          else ret tt
      | None => ret tt
      end
  end.

(** The two maintainer sweeps. *)
Inductive Sweep := AgeSweep | SignatureSweep.

Definition run_sweep (s : Sweep) : Task unit :=
  match s with
  | AgeSweep => performPeriodicCacheInvalidation
  | SignatureSweep => performPeriodicSignatureInvalidation
  end.

Definition sweep_body (s : Sweep) : string → Request → Task unit :=
  match s with
  | AgeSweep => expire_entry
  | SignatureSweep => retire_entry
  end.

Definition sweep_warning (s : Sweep) : string :=
  match s with
  | AgeSweep => "Periodic cache invalidation failed:"
  | SignatureSweep => "Periodic signature invalidation failed:"
  end.

(** Whether a sweep reading the clock at [T] deletes the entry [r] stored
    for [key]. *)
Definition sweep_deletes (s : Sweep) (T : Z) (key : string) (r : Response) : bool :=
  match s with
  | AgeSweep => age_exceeds T maxCacheAge r
  | SignatureSweep =>
      match headers_get "X-Signature" r with
      | Some sig => JS.truthy sig && bool_decide (sig ≠ signature_at T key)
      | None => false
      end
  end.

(** The second world has the faults, the clock and the console of the first. *)
Definition same_env (w w' : World) : Prop :=
  store_fault w' = store_fault w ∧ clock w' = clock w ∧ console w' = console w.


(** Deleting [url] from the partitions called [names], one after another,
    and from every partition at once. *)
Definition purge (url : string) (names : list string) (cs : CacheStorage)
    : CacheStorage :=
  foldl (λ cs name, in_cache name (alist_delete url) cs) cs names.

Definition purged (url : string) (cs : CacheStorage) : CacheStorage :=
  (λ p, (p.1, alist_delete url p.2)) <$> cs.

(** What one activity may do to the entries: each is as before, or holds a
    response with the status of the ok response its fetch resolved to. *)
Definition stores_only_ok (w w' : World) : Prop :=
  ∀ name key,
    entry name key (caches w') = entry name key (caches w) ∨
    ∃ r r', network w (length (fetches w)) = Resolves r ∧ ok r = true ∧
            entry name key (caches w') = Some r' ∧ status r' = status r.

(** Boolean checks of [wf] and [all_ok], for concrete stores. *)
Definition wfb (cs : CacheStorage) : bool :=
  bool_decide (NoDup cs.*1) && forallb (λ p, bool_decide (NoDup p.2.*1)) cs.

Definition all_okb (cs : CacheStorage) : bool :=
  forallb (λ p, forallb (λ e, ok e.2) p.2) cs.

(** ** Installation and activation *)

Definition STATIC_FILES : list string :=
  ["/"; "/index.html"; "/src/main.js";
   "/src/production/CacheBustingManager.js"; "/manifest.json"].

Definition updateCheckInterval : Z := 30000.

(** What a lifecycle listener asks of the host besides cache and console
    work. *)
Inductive Lifecycle :=
| SkipWaiting
| ClientsClaim
| SetInterval (every : Z) (sweep : Sweep).

(** [console.log(message)] and [console.error(message, error)] *)
Definition console_log (message : string) : Task unit :=
  λ w, (Normal tt,
        mkWorld (caches w) (clock w) (ticks w) (network w) (fetches w)
                (store_fault w) (detached w) (console w ++ [message])).

Definition console_error (message : string) : Task unit := console_log message.

(** A [fetch] whose settlement is looked at rather than awaited. *)
Definition fetch_settled (request : Request) : Task FetchResult :=
  try_catch (let* r := fetch request None ∅ in ret (Resolves r))
            (λ e, ret (Rejects e)).

Fixpoint fetch_each (urls : list string) : Task (list (string * FetchResult)) :=
  match urls with
  | [] => ret []
  | u :: rest =>
      let* settled := fetch_settled (mkRequest "GET" u) in
      let* others := fetch_each rest in
      ret ((u, settled) :: others)
  end.

(** The responses of a batch, when every fetch resolved to an ok response. *)
Fixpoint all_fulfilled (settled : list (string * FetchResult))
    : option (list (string * Response)) :=
  match settled with
  | [] => Some []
  | (u, Resolves r) :: rest =>
      if ok r then cons (u, r) <$> all_fulfilled rest else None
  | (_, Rejects _) :: _ => None
  end.

(** [await cache.addAll(urls)]: every URL is fetched; the batch is stored
    as a whole when every response is ok and every write is accepted, and
    not at all otherwise. *)
Definition cache_addAll (cache : string) (urls : list string) : Task unit :=
  let* settled := fetch_each urls in
  match all_fulfilled settled with
  | None => throw (TypeError "Request failed")
  | Some responses =>
      λ w, match find (λ p, store_fault w OpPut cache p.1) responses with
           | Some p => (Throws (StoreError OpPut cache p.1), w)
           | None =>
               (Normal tt,
                with_caches (in_cache cache (λ es,
                  foldl (λ es p, alist_put p.1 p.2 es) es responses)) w)
           end
  end.

(** The install listener; the static files are resolved against the
    worker's origin. *)
Definition install (location_origin : string) : Task (list Lifecycle) :=
  console_log "🔧 Production service worker installing...";;
  try_catch
    (let* cache := caches_open STATIC_CACHE_NAME in
     console_log "📦 Caching static files with version bumping...";;
     cache_addAll cache (String.app location_origin <$> STATIC_FILES);;
     console_log "✅ Static files cached successfully";;
     ret [SkipWaiting])
    (λ error, console_error "❌ Failed to cache static files:";; ret []).

(** The two timers [startCacheBustingStrategies] sets. *)
Definition startCacheBustingStrategies : Task (list Lifecycle) :=
  console_log "🚀 Starting cache busting strategies...";;
  ret [SetInterval updateCheckInterval AgeSweep;
       SetInterval (updateCheckInterval * 2) SignatureSweep].

(** The activate listener. *)
Definition activate : Task (list Lifecycle) :=
  console_log "🚀 Production service worker activating...";;
  let* cacheNames := caches_keys in
  for_of cacheNames (λ cacheName,
    if bool_decide (cacheName ≠ STATIC_CACHE_NAME) &&
       bool_decide (cacheName ≠ DYNAMIC_CACHE_NAME) &&
       bool_decide (cacheName ≠ API_CACHE_NAME)
    then (console_log "🗑️ Deleting old cache:";; caches_delete cacheName;; ret tt)
    else ret tt);;
  console_log "✅ Service worker activated";;
  let* timers := startCacheBustingStrategies in
  ret (ClientsClaim :: timers).

(** The second world holds no entry the first does not hold, and holds
    those it keeps unchanged. *)
Definition only_removes (w w' : World) : Prop :=
  ∀ name key,
    entry name key (caches w') = entry name key (caches w) ∨
    entry name key (caches w') = None.


(** The names of the current version's partitions. *)
Definition current_names : list string :=
  [STATIC_CACHE_NAME; DYNAMIC_CACHE_NAME; API_CACHE_NAME].




(** ** Sample worlds *)

(** A clock that stands still at [T]. *)
Definition at_time (T : Z) : nat → Z := λ _, T.

Definition offline : nat → FetchResult :=
  λ _, Rejects (NetworkError "Failed to fetch").

Definition answering (r : Response) : nat → FetchResult := λ _, Resolves r.

Definition no_faults : CacheOp → string → string → bool := λ _ _ _, false.

Definition world_of (cs : CacheStorage) (T : Z) (net : nat → FetchResult)
    (faults : CacheOp → string → string → bool) : World :=
  mkWorld cs (at_time T) 0 net [] faults [] [].

Definition stamped (T : Z) (content : string) : Response :=
  mkResponse 200 content {["X-Cache-Timestamp" := JS.toString T]}.

Definition unavailable : Response := mkResponse 503 "Service Unavailable" ∅.

Definition app_js : string := "https://app.example/assets/app.js".
Definition page_v2 : string := "https://app.example/page?v=2".
Definition api_data : string := "https://app.example/api/data".

(** A response signed in the bucket of time [T] and stamped at [T]. *)
Definition signed (T : Z) (key content : string) : Response :=
  mkResponse 200 content
    {["X-Signature" := signature_at T key; "X-Cache-Timestamp" := JS.toString T]}.

Definition plain (content : string) : Response := mkResponse 200 content ∅.

(** One fault: reading [key] rejects, in whichever partition. *)
Definition unreadable (key : string) : CacheOp → string → string → bool :=
  λ op _ k, match op with OpMatch => bool_decide (k = key) | _ => false end.

Definition noon : Z := 1700000000000.
Definition next_day : Z := noon + maxCacheAge + 1.


(** * Properties *)

(** ** Association lists and partitions *)

Section alist.
Context {V : Type}.
Implicit Types (l : list (string * V)) (k : string).

Lemma alist_lookup_app k l1 l2 :
  alist_lookup k (l1 ++ l2) =
  match alist_lookup k l1 with Some v => Some v | None => alist_lookup k l2 end.
Proof.
  induction l1 as [|[k' v] l1 IH]; simpl; [done|].
  by destruct (decide (k' = k)).
Qed.

Lemma alist_lookup_delete_eq k l : alist_lookup k (alist_delete k l) = None.
Proof.
  unfold alist_delete. induction l as [|[k' v] l IH]; simpl; [done|].
  rewrite filter_cons; simpl. destruct (decide (k' ≠ k)) as [Hne|]; [|done].
  simpl. by rewrite decide_False.
Qed.

Lemma alist_lookup_delete_ne k k' l :
  k ≠ k' → alist_lookup k' (alist_delete k l) = alist_lookup k' l.
Proof.
  intros Hne. unfold alist_delete. induction l as [|[k0 v] l IH]; simpl; [done|].
  rewrite filter_cons; simpl. destruct (decide (k0 ≠ k)) as [H0|H0]; simpl.
  - by rewrite IH.
  - apply dec_stable in H0. subst k0. by rewrite decide_False.
Qed.

Lemma alist_lookup_delete k k' l :
  alist_lookup k' (alist_delete k l) =
  if decide (k = k') then None else alist_lookup k' l.
Proof.
  destruct (decide (k = k')) as [->|]; auto using alist_lookup_delete_eq, alist_lookup_delete_ne.
Qed.

Lemma alist_lookup_put k k' (v : V) l :
  alist_lookup k' (alist_put k v l) =
  if decide (k = k') then Some v else alist_lookup k' l.
Proof.
  unfold alist_put. rewrite alist_lookup_app, alist_lookup_delete. simpl.
  destruct (decide (k = k')); [done|]. by destruct (alist_lookup k' l).
Qed.

Lemma alist_delete_absent k l : alist_lookup k l = None → alist_delete k l = l.
Proof.
  unfold alist_delete. induction l as [|[k' v] l IH]; simpl; [done|].
  destruct (decide (k' = k)); [done|]. intros H.
  rewrite filter_cons; simpl. rewrite decide_True by done. by rewrite IH.
Qed.

Lemma alist_delete_idemp k l : alist_delete k (alist_delete k l) = alist_delete k l.
Proof. apply alist_delete_absent, alist_lookup_delete_eq. Qed.

Lemma alist_delete_keys k l : (alist_delete k l).*1 = filter (λ k', k' ≠ k) (l.*1).
Proof.
  unfold alist_delete. induction l as [|[k' v] l IH]; [done|].
  rewrite fmap_cons, !filter_cons; simpl.
  destruct (decide (k' ≠ k)); rewrite ?fmap_cons; simpl; by rewrite IH.
Qed.

Lemma alist_lookup_Some_keys k l (v : V) : alist_lookup k l = Some v → k ∈ l.*1.
Proof.
  induction l as [|[k' v'] l IH]; [done|].
  rewrite fmap_cons; simpl.
  destruct (decide (k' = k)) as [->|]; [left|right; auto].
Qed.

Lemma alist_lookup_None_keys k l : alist_lookup k l = None ↔ k ∉ l.*1.
Proof.
  induction l as [|[k' v'] l IH].
  - split; [intros _; apply not_elem_of_nil|done].
  - rewrite fmap_cons, not_elem_of_cons; simpl.
    destruct (decide (k' = k)) as [->|]; [split; [done|tauto]|].
    rewrite IH. split; [by split; [congruence|]|tauto].
Qed.

End alist.

(** ** The request router *)

Example parse_example :
  Url.parse "https://app.example/assets/app.js?v=3#top"
  = Some (Url.mk "https://app.example" "/assets/app.js" "?v=3" "#top").
Proof. reflexivity. Qed.

Example parseInt_examples :
  JS.parseInt "1700000000000" = Some 1700000000000 ∧
  JS.parseInt "  -42px" = Some (-42) ∧
  JS.parseInt "0x1f" = Some 31 ∧
  JS.parseInt "" = None ∧
  JS.parseInt "abc" = None ∧
  JS.parseInt (JS.toString noon) = Some noon.
Proof. repeat split; vm_compute; reflexivity. Qed.

Example route_examples :
  route "https://app.example" (mkRequest "GET" "https://app.example/api/data.js")
  = RespondWith NetworkFirstWithCacheBust ∧
  route "https://app.example" (mkRequest "GET" "https://app.example/assets/app.js")
  = RespondWith CacheFirstWithSignature ∧
  route "https://app.example" (mkRequest "GET" "https://app.example/page?v=2")
  = RespondWith StaleWhileRevalidateWithBypass ∧
  route "https://app.example" (mkRequest "GET" "https://app.example/about")
  = RespondWith DefaultStaleWhileRevalidate ∧
  route "https://app.example" (mkRequest "POST" "https://app.example/api/data")
  = NotIntercepted ∧
  route "https://app.example" (mkRequest "GET" "https://cdn.example/assets/app.js")
  = NotIntercepted.
Proof. repeat split; reflexivity. Qed.

(** The three URLs on which the listener's substring tests and the
    specification's path and query tests disagree: a version parameter that
    is not the first query parameter, an extension that merely begins with
    [.js], and [/api/] occurring in the query only. *)
Lemma route_differs_from_spec_classify :
  let here := "https://app.example" in
  let later_param := Url.mk here "/page" "?x=1&v=2" "" in
  let json := Url.mk here "/data.json" "" "" in
  let api_in_query := Url.mk here "/search" "?next=/api/x" "" in
  (Url.parse "https://app.example/page?x=1&v=2" = Some later_param ∧
   route here (mkRequest "GET" "https://app.example/page?x=1&v=2")
     = RespondWith DefaultStaleWhileRevalidate ∧
   spec_classify later_param = StaleWhileRevalidateWithBypass) ∧
  (Url.parse "https://app.example/data.json" = Some json ∧
   route here (mkRequest "GET" "https://app.example/data.json")
     = RespondWith CacheFirstWithSignature ∧
   spec_classify json = DefaultStaleWhileRevalidate) ∧
  (Url.parse "https://app.example/search?next=/api/x" = Some api_in_query ∧
   route here (mkRequest "GET" "https://app.example/search?next=/api/x")
     = RespondWith NetworkFirstWithCacheBust ∧
   spec_classify api_in_query = DefaultStaleWhileRevalidate).
Proof. repeat split; reflexivity. Qed.

(** C1, as stated, fails: for an intercepted same-origin GET request the
    policy the listener selects is not always the one the path and query
    rules of the specification select. *)
Lemma C1_counterexample :
  ¬ (∀ location_origin request u,
       Url.parse (url request) = Some u →
       method request = "GET" →
       Url.origin u = location_origin →
       route location_origin request = RespondWith (spec_classify u)).
Proof.
  intros H.
  specialize (H "https://app.example"
                (mkRequest "GET" "https://app.example/page?x=1&v=2")
                (Url.mk "https://app.example" "/page" "?x=1&v=2" "")
                eq_refl eq_refl eq_refl).
  vm_compute in H. discriminate H.
Qed.

(** C1, amended: every intercepted same-origin GET request is answered by
    exactly one of the four policies, the first whose test matches, where
    each test is a substring test on the whole URL string: [/api/]; then
    [/assets/], [.js] or [.css]; then [?v=], [?cb=] or [?h=]; then the
    default. *)
Theorem C1_route_first_match location_origin request u :
  Url.parse (url request) = Some u →
  method request = "GET" →
  Url.origin u = location_origin →
  let has := JS.includes (url request) in
  let api := has "/api/" in
  let asset := has "/assets/" || has ".js" || has ".css" in
  let versioned := has "?v=" || has "?cb=" || has "?h=" in
  ∃ p, route location_origin request = RespondWith p ∧
       (∀ q, route location_origin request = RespondWith q → q = p) ∧
       (p = NetworkFirstWithCacheBust ↔ api = true) ∧
       (p = CacheFirstWithSignature ↔ api = false ∧ asset = true) ∧
       (p = StaleWhileRevalidateWithBypass ↔
          api = false ∧ asset = false ∧ versioned = true) ∧
       (p = DefaultStaleWhileRevalidate ↔
          api = false ∧ asset = false ∧ versioned = false).
Proof.
  intros Hparse Hget Horigin has api asset versioned.
  assert (Hroute : route location_origin request = RespondWith
            (if api then NetworkFirstWithCacheBust
             else if asset then CacheFirstWithSignature
             else if versioned then StaleWhileRevalidateWithBypass
             else DefaultStaleWhileRevalidate)).
  { unfold route. rewrite Hparse, Hget, Horigin, !String.eqb_refl. simpl.
    subst api asset versioned has. simpl.
    destruct (JS.includes (url request) "/api/"); [done|].
    destruct (JS.includes (url request) "/assets/" || JS.includes (url request) ".js"
              || JS.includes (url request) ".css"); [done|].
    by destruct (JS.includes (url request) "?v=" || JS.includes (url request) "?cb="
                 || JS.includes (url request) "?h="). }
  eexists. split; [exact Hroute|]. split.
  { intros q Hq. congruence. }
  destruct api, asset, versioned; intuition congruence.
Qed.

Lemma C1_route_first_match_witness :
  ∃ p, route "https://app.example"
         (mkRequest "GET" "https://app.example/data.json?x=1&v=2") = RespondWith p ∧
       p = CacheFirstWithSignature.
Proof.
  destruct (C1_route_first_match "https://app.example"
              (mkRequest "GET" "https://app.example/data.json?x=1&v=2")
              (Url.mk "https://app.example" "/data.json" "?x=1&v=2" "")
              eq_refl eq_refl eq_refl) as (p & Hp & _ & _ & Hasset & _).
  exists p. split; [exact Hp|]. apply Hasset. split; reflexivity.
Defined.

(** ** Running host operations *)

Lemma entry_partition_exists name key cs r :
  entry name key cs = Some r → ∃ es, alist_lookup name cs = Some es.
Proof. unfold entry. destruct (alist_lookup name cs); [eauto|done]. Qed.

Lemma caches_open_existing name key r w :
  entry name key (caches w) = Some r → caches_open name w = (Normal name, w).
Proof.
  intros [es Hes]%entry_partition_exists. unfold caches_open. by rewrite Hes.
Qed.

(** ** The cache-first policy *)

(** C2: when the static partition holds an entry for the request whose
    stored [X-Signature] equals the signature computed when the request is
    handled, the asset policy returns that entry; no fetch is issued, no
    refresh is queued and the partitions are left as they were. *)
Theorem C2_cache_first_short_circuit request cached w :
  store_fault w OpMatch STATIC_CACHE_NAME (url request) = false →
  entry STATIC_CACHE_NAME (url request) (caches w) = Some cached →
  headers_get "X-Signature" cached
    = Some (signature_at (clock w (ticks w)) (url request)) →
  ∃ w', handleAssetRequestWithSignatureInvalidation request w = (Normal cached, w') ∧
        fetches w' = fetches w ∧
        detached w' = detached w ∧
        caches w' = caches w.
Proof.
  intros Hfault Hentry Hsig.
  unfold handleAssetRequestWithSignatureInvalidation, bind at 1.
  rewrite (caches_open_existing _ _ _ _ Hentry).
  unfold bind at 1, cache_match. rewrite Hfault, Hentry.
  unfold shouldInvalidateCache, generateSignature, bind, date_now, ret. simpl.
  rewrite Hsig. rewrite bool_decide_false by (intros H; by apply H).
  simpl. eauto.
Qed.

(** ** Detached refreshes never throw *)



(** ** Stale-while-revalidate with conditional bypass *)


(** ** Cache-first with an unsigned entry *)


(** ** Entries under partition updates *)

Lemma alist_lookup_in_cache name name' (f : Cache → Cache) (cs : CacheStorage) :
  alist_lookup name' (in_cache name f cs) =
  (if decide (name' = name) then f else id) <$> alist_lookup name' cs.
Proof.
  unfold in_cache. induction cs as [|[n es] cs IH]; [done|].
  rewrite fmap_cons. simpl.
  destruct (decide (n = name)) as [->|Hn]; simpl.
  - destruct (decide (name = name')) as [<-|]; [by rewrite decide_True|done].
  - destruct (decide (n = name')) as [<-|]; [by rewrite decide_False|done].
Qed.

Lemma entry_in_cache_put name key r name' key' (cs : CacheStorage) :
  entry name' key' (in_cache name (alist_put key r) cs) =
  if decide (name' = name ∧ key' = key)
  then alist_lookup name cs ≫= λ _, Some r
  else entry name' key' cs.
Proof.
  unfold entry. rewrite alist_lookup_in_cache.
  destruct (decide (name' = name)) as [->|].
  - destruct (alist_lookup name cs) as [es|]; simpl.
    + rewrite alist_lookup_put.
      destruct (decide (key = key')) as [->|]; [by rewrite decide_True|].
      rewrite decide_False; [done|]. intros [_ ?]; congruence.
    + by destruct (decide _).
  - rewrite decide_False by (intros [? _]; done).
    by destruct (alist_lookup name' cs).
Qed.

Lemma entry_in_cache_delete name key name' key' (cs : CacheStorage) :
  entry name' key' (in_cache name (alist_delete key) cs) =
  if decide (name' = name ∧ key' = key) then None else entry name' key' cs.
Proof.
  unfold entry. rewrite alist_lookup_in_cache.
  destruct (decide (name' = name)) as [->|].
  - destruct (alist_lookup name cs) as [es|]; simpl.
    + rewrite alist_lookup_delete.
      destruct (decide (key = key')) as [->|]; [by rewrite decide_True|].
      rewrite decide_False; [done|]. intros [_ ?]; congruence.
    + by destruct (decide _).
  - rewrite decide_False by (intros [? _]; done).
    by destruct (alist_lookup name' cs).
Qed.

Lemma entry_new_partition name name' key' (cs : CacheStorage) :
  alist_lookup name cs = None →
  entry name' key' (cs ++ [(name, [])]) = entry name' key' cs.
Proof.
  intros Hnone. unfold entry. rewrite alist_lookup_app.
  destruct (alist_lookup name' cs) eqn:Hl; [done|]. simpl.
  by destruct (decide (name = name')).
Qed.

(** ** Only ok responses are stored *)

Ltac run_task :=
  unfold handleApiRequestWithCacheBusting,
    handleAssetRequestWithSignatureInvalidation,
    handleVersionedRequestWithConditionalBypass,
    handleDefaultRequestWithStaleWhileRevalidate,
    refreshCacheInBackground, updateCacheInBackgroundWithConditionalBypass,
    updateCacheInBackground, shouldInvalidateCache, generateSignature,
    timestampOlderThan, cache_put_unawaited, cache_put, cache_match, caches_open,
    fetch, date_now, detach, console_warn, try_catch, bind, ret, throw, with_caches;
  simpl;
  repeat (case_match; simplify_eq/=).

Ltac entries_unchanged_or_ok :=
  intros name key; simpl;
  rewrite ?entry_in_cache_put;
  repeat match goal with
  | H : alist_lookup _ _ = None |- _ => rewrite (entry_new_partition _ _ _ _ H)
  end;
  first
    [ left; reflexivity
    | destruct (decide (name = _ ∧ key = _)) as [[-> ->]|]; [|left; reflexivity];
      rewrite ?alist_lookup_app;
      repeat match goal with
      | H : alist_lookup _ _ = _ |- _ => rewrite H
      end;
      simpl; rewrite ?decide_True by done; simpl;
      first
        [ right; eexists _, _; split; [eassumption|]; split; [assumption|];
          split; reflexivity
        | match goal with
          | |- context [alist_lookup ?n ?cs ≫= _] =>
              destruct (alist_lookup n cs) eqn:Hpartition; simpl;
              [ right; eexists _, _; split; [eassumption|]; split; [assumption|];
                split; reflexivity
              | left; unfold entry; by rewrite Hpartition ]
          end ] ].

Lemma handler_stores_only_ok p request w :
  stores_only_ok w (handler p request w).2.
Proof.
  destruct p; simpl; run_task; entries_unchanged_or_ok.
Qed.

Lemma run_detached_stores_only_ok t w :
  stores_only_ok w (run_detached t w).2.
Proof.
  destruct t; simpl; run_task; entries_unchanged_or_ok.
Qed.

Lemma after_stores_only_ok a w : stores_only_ok w (after a w).
Proof.
  destruct a; [apply handler_stores_only_ok|apply run_detached_stores_only_ok].
Qed.

Lemma ok_status r r' : status r' = status r → ok r' = ok r.
Proof. unfold ok. by intros ->. Qed.

(** C10: a policy handling a request, or a queued refresh running, keeps
    every stored response ok; and when the fetch it issues does not resolve
    to an ok response, it leaves every entry of every partition as it was. *)
Theorem C10_only_ok_responses_are_stored a w :
  all_ok (caches w) →
  all_ok (caches (after a w)) ∧
  ((∀ r, network w (length (fetches w)) = Resolves r → ok r = false) →
   ∀ name key, entry name key (caches (after a w)) = entry name key (caches w)).
Proof.
  intros Hok. pose proof (after_stores_only_ok a w) as Hstores. split.
  - intros name key r' Hr'.
    destruct (Hstores name key) as [Heq|(r & r0 & Hnet & Hr & Hentry & Hstatus)].
    + rewrite Heq in Hr'. by eapply Hok.
    + rewrite Hentry in Hr'. injection Hr' as <-.
      by rewrite (ok_status _ _ Hstatus).
  - intros Hbad name key.
    destruct (Hstores name key) as [Heq|(r & r0 & Hnet & Hr & _)]; [done|].
    apply Hbad in Hnet. congruence.
Qed.

(** ** Printing and reading numbers

    A timestamp written with [Date.now().toString()] is read back by
    [parseInt] as the number that was written. *)

Lemma digit_pretty_N_char (m : N) :
  (m < 10)%N → JS.digit 10 (pretty_N_char m) = Some (Z.of_N m).
Proof.
  intros Hm.
  assert (m = 0 ∨ m = 1 ∨ m = 2 ∨ m = 3 ∨ m = 4 ∨ m = 5 ∨ m = 6 ∨ m = 7
          ∨ m = 8 ∨ m = 9)%N as Hcases by lia.
  repeat (destruct Hcases as [->|Hcases]; [reflexivity|]). by subst.
Qed.

(** The digits of a positive number, read back after any accumulator. *)
Lemma digits_pretty_N_go (x : N) s acc :
  (0 < x)%N →
  ∃ k, 0 ≤ k ∧
    JS.digits 10 acc (pretty_N_go x s)
    = JS.digits 10 (Some (default 0 acc * 10 ^ k + Z.of_N x)) s.
Proof.
  revert s acc. induction (N.lt_wf_0 x) as [x _ IH]; intros s acc Hx.
  rewrite pretty_N_go_step by done.
  assert (Hdigit := digit_pretty_N_char (x `mod` 10)%N).
  destruct (decide (x `div` 10 = 0)%N) as [Hsmall|Hbig].
  - rewrite Hsmall, pretty_N_go_0. simpl. rewrite Hdigit by (apply N.mod_lt; lia).
    exists 1. split; [lia|]. f_equal. f_equal.
    rewrite Z.pow_1_r.
    pose proof (N.div_mod x 10 ltac:(done)) as Hsplit.
    rewrite Hsmall, N.mul_0_r, N.add_0_l in Hsplit. rewrite <- Hsplit. ring.
  - destruct (IH (x `div` 10)%N) with (s := String (pretty_N_char (x `mod` 10)) s)
      (acc := acc) as (k & Hk & ->); [apply N.div_lt; lia|by apply N.neq_0_lt_0|].
    simpl. rewrite Hdigit by (apply N.mod_lt; lia). simpl.
    exists (k + 1). split; [lia|]. f_equal. f_equal.
    rewrite Z.pow_add_r, Z.pow_1_r by lia.
    pose proof (N.div_mod x 10 ltac:(done)) as Hsplit.
    rewrite Hsplit at 3. rewrite N2Z.inj_add, N2Z.inj_mul. simpl Z.of_N. ring.
Qed.

(** A positive number is printed with a leading digit other than zero. *)
Lemma pretty_N_go_leading (x : N) s :
  (0 < x)%N →
  ∃ m rest, (0 < m < 10)%N ∧ pretty_N_go x s = String (pretty_N_char m) rest.
Proof.
  revert s. induction (N.lt_wf_0 x) as [x _ IH]; intros s Hx.
  rewrite pretty_N_go_step by done.
  destruct (decide (x `div` 10 = 0)%N) as [Hsmall|Hbig].
  - rewrite Hsmall, pretty_N_go_0. exists (x `mod` 10)%N, s. split; [|done].
    pose proof (N.div_mod x 10). pose proof (N.mod_lt x 10). lia.
  - apply IH; [apply N.div_lt; lia|by apply N.neq_0_lt_0].
Qed.

Lemma parseInt_leading_digit (m : N) rest :
  (0 < m < 10)%N →
  JS.parseInt (String (pretty_N_char m) rest)
    = Z.mul 1 <$> JS.digits 10 None (String (pretty_N_char m) rest) ∧
  JS.parseInt (String "-" (String (pretty_N_char m) rest))
    = Z.mul (-1) <$> JS.digits 10 None (String (pretty_N_char m) rest).
Proof.
  intros Hm.
  assert (m = 1 ∨ m = 2 ∨ m = 3 ∨ m = 4 ∨ m = 5 ∨ m = 6 ∨ m = 7 ∨ m = 8 ∨ m = 9)%N
    as Hcases by lia.
  repeat (destruct Hcases as [->|Hcases]; [split; reflexivity|]).
  subst m. split; reflexivity.
Qed.

Lemma parseInt_pretty_positive (p : positive) :
  JS.parseInt (pretty (Npos p)) = Some (Zpos p) ∧
  JS.parseInt ("-" +:+ pretty (Npos p)) = Some (Zneg p).
Proof.
  unfold pretty, pretty_N. rewrite decide_False by done.
  destruct (pretty_N_go_leading (Npos p) "") as (m & rest & Hm & Hshape); [done|].
  destruct (digits_pretty_N_go (Npos p) "" None) as (k & _ & Hdigits); [done|].
  rewrite Hshape in *. change ("-" +:+ String ?c ?r) with (String "-" (String c r)).
  destruct (parseInt_leading_digit m rest Hm) as [-> ->].
  rewrite Hdigits. simpl. split; f_equal; lia.
Qed.

Lemma parseInt_toString (n : Z) : JS.parseInt (JS.toString n) = Some n.
Proof.
  destruct n as [|p|p]; [reflexivity|apply parseInt_pretty_positive..].
Qed.

Lemma age_exceeds_stamped now limit T r :
  age_exceeds now limit (headers_set "X-Cache-Timestamp" (JS.toString T) r)
  = bool_decide (now - T > limit).
Proof.
  unfold age_exceeds, headers_get, headers_set. simpl.
  rewrite lookup_insert_eq. simpl. by rewrite parseInt_toString.
Qed.

(** ** Network-first with cache bust *)

Lemma timestampOlderThan_run r limit w :
  ∃ w', timestampOlderThan (headers_get "X-Cache-Timestamp" r) limit w
          = (Normal (age_exceeds (clock w (ticks w)) limit r), w') ∧
        caches w' = caches w ∧ detached w' = detached w ∧
        fetches w' = fetches w ∧ store_fault w' = store_fault w ∧
        clock w' = clock w ∧ network w' = network w ∧ console w' = console w.
Proof.
  unfold timestampOlderThan, age_exceeds.
  destruct (headers_get "X-Cache-Timestamp" r) as [ts|]; simpl.
  - destruct ts as [|a ts]; simpl; [unfold ret; eauto 10|].
    unfold bind, date_now, ret, JS.olderThan. simpl. eauto 10.
  - unfold ret; eauto 10.
Qed.



(** ** Well-formed partitions *)

Lemma in_cache_names name (f : Cache → Cache) (cs : CacheStorage) :
  (in_cache name f cs).*1 = cs.*1.
Proof.
  unfold in_cache. induction cs as [|[n es] cs IH]; [done|].
  rewrite !fmap_cons. simpl. rewrite IH. by destruct (decide (n = name)).
Qed.

Lemma wf_in_cache name (f : Cache → Cache) (cs : CacheStorage) :
  (∀ es, NoDup es.*1 → NoDup (f es).*1) → wf cs → wf (in_cache name f cs).
Proof.
  intros Hf [Hnames Hkeys]. split; [by rewrite in_cache_names|].
  intros n es. rewrite alist_lookup_in_cache.
  destruct (alist_lookup n cs) as [es0|] eqn:Hl; [|done].
  simpl. intros [= <-]. destruct (decide (n = name)); eauto.
Qed.

Lemma alist_delete_NoDup {V} k (l : list (string * V)) :
  NoDup l.*1 → NoDup (alist_delete k l).*1.
Proof. rewrite alist_delete_keys. apply NoDup_filter. Qed.


Lemma alist_lookup_is_Some {V} k (l : list (string * V)) :
  k ∈ l.*1 → is_Some (alist_lookup k l).
Proof.
  intros Hin. destruct (alist_lookup k l) eqn:Hl; [eauto|].
  by apply alist_lookup_None_keys in Hl.
Qed.

Lemma entry_in_partition name key (cs : CacheStorage) es :
  alist_lookup name cs = Some es → entry name key cs = alist_lookup key es.
Proof. unfold entry. by intros ->. Qed.

(** ** Loops *)

Lemma for_of_nil {A} (body : A → Task unit) w : for_of [] body w = (Normal tt, w).
Proof. done. Qed.

Lemma for_of_cons {A} x (xs : list A) (body : A → Task unit) w :
  for_of (x :: xs) body w =
  match body x w with
  | (Normal _, w') => for_of xs body w'
  | (Throws e, w') => (Throws e, w')
  end.
Proof. done. Qed.

(** ** A walk on a healthy store

    When the loop body, run on a stored entry, completes and replaces that
    one entry by what [g] makes of it, the walk does so for every entry. *)

Section walk_completes.

Variable body : string → Request → Task unit.
Variable g : string → Response → option Response.
Variable P : World → Prop.

Hypothesis body_spec : ∀ cache key r w,
  P w → wf (caches w) → entry cache key (caches w) = Some r →
  ∃ w', body cache (mkRequest "GET" key) w = (Normal tt, w') ∧
        P w' ∧ wf (caches w') ∧ (caches w').*1 = (caches w).*1 ∧
        ∀ name' key', entry name' key' (caches w') =
          if decide (name' = cache ∧ key' = key) then g key r
          else entry name' key' (caches w).

Lemma walk_keys cache keys w :
  P w → wf (caches w) → NoDup keys →
  (∀ key, key ∈ keys → is_Some (entry cache key (caches w))) →
  ∃ w', for_of (mkRequest "GET" <$> keys) (body cache) w = (Normal tt, w') ∧
        P w' ∧ wf (caches w') ∧ (caches w').*1 = (caches w).*1 ∧
        ∀ name' key', entry name' key' (caches w') =
          if decide (name' = cache ∧ key' ∈ keys)
          then entry cache key' (caches w) ≫= g key'
          else entry name' key' (caches w).
Proof.
  revert w. induction keys as [|key keys IH]; intros w HP Hwf Hnodup Hsome.
  - exists w. split_and!; try done. intros name' key'.
    rewrite decide_False; [done|]. intros [_ H]. by apply not_elem_of_nil in H.
  - apply NoDup_cons in Hnodup as [Hfresh Hnodup].
    destruct (Hsome key) as [r Hr]; [left|].
    destruct (body_spec cache key r w HP Hwf Hr)
      as (w1 & Hrun & HP1 & Hwf1 & Hnames1 & Hentries1).
    destruct (IH w1 HP1 Hwf1 Hnodup) as (w2 & Hloop & HP2 & Hwf2 & Hnames2 & Hentries2).
    { intros key' Hin. rewrite Hentries1, decide_False; [apply Hsome; by right|].
      intros [_ ->]. done. }
    exists w2. rewrite fmap_cons, for_of_cons, Hrun. split; [done|].
    split_and!; try done; [congruence|].
    intros name' key'. rewrite Hentries2, !Hentries1.
    destruct (decide (name' = cache ∧ key' ∈ keys)) as [[-> Hin]|Hout].
    + rewrite decide_False by (intros [_ ->]; done).
      rewrite decide_True; [done|]. split; [done|by right].
    + destruct (decide (name' = cache ∧ key' = key)) as [[-> ->]|Hother].
      * rewrite decide_True by (split; [done|left]). by rewrite Hr.
      * rewrite decide_False; [done|].
        intros [-> [->|Hin]%elem_of_cons]; [by apply Hother|by apply Hout].
Qed.

Lemma walk_partitions names w :
  P w → wf (caches w) → NoDup names → names ⊆ (caches w).*1 →
  ∃ w', for_of names (λ cacheName,
          let* cache := caches_open cacheName in
          let* keys := cache_keys cache in
          for_of keys (body cache)) w = (Normal tt, w') ∧
        P w' ∧ wf (caches w') ∧ (caches w').*1 = (caches w).*1 ∧
        ∀ name' key', entry name' key' (caches w') =
          if decide (name' ∈ names)
          then entry name' key' (caches w) ≫= g key'
          else entry name' key' (caches w).
Proof.
  revert w. induction names as [|name names IH]; intros w HP Hwf Hnodup Hsub.
  - exists w. split_and!; try done.
    all: intros name' key'; rewrite decide_False; [done|]; apply not_elem_of_nil.
  - apply NoDup_cons in Hnodup as [Hfresh Hnodup].
    destruct (alist_lookup_is_Some name (caches w)) as [es Hes];
      [apply Hsub; left|].
    destruct (walk_keys name es.*1 w HP Hwf) as (w1 & Hloop & HP1 & Hwf1 & Hnames1 & Hentries1).
    { destruct Hwf as [_ Hkeys]. eauto. }
    { intros key Hin. rewrite (entry_in_partition _ _ _ _ Hes).
      by apply alist_lookup_is_Some. }
    destruct (IH w1 HP1 Hwf1 Hnodup) as (w2 & Hrest & HP2 & Hwf2 & Hnames2 & Hentries2).
    { rewrite Hnames1. intros n Hn. apply Hsub. by right. }
    exists w2. rewrite for_of_cons.
    unfold bind at 1, caches_open at 1. rewrite Hes.
    unfold bind at 1, cache_keys at 1. rewrite Hes. simpl.
    rewrite Hloop. split; [done|]. split_and!; try done; [congruence|].
    intros name' key'. rewrite Hentries2, !Hentries1.
    assert (Hkeys : ∀ key, key ∉ es.*1 → entry name key (caches w) = None).
    { intros key Hout. rewrite (entry_in_partition _ _ _ _ Hes).
      by apply alist_lookup_None_keys. }
    destruct (decide (name' ∈ names)) as [Hin|Hout].
    + rewrite decide_False by (intros [-> _]; done).
      rewrite decide_True; [done|by right].
    + destruct (decide (name' = name)) as [->|Hne].
      * rewrite (decide_True (P := name ∈ name :: names)) by left.
        destruct (decide (key' ∈ es.*1)) as [Hk|Hk].
        -- by rewrite decide_True.
        -- rewrite decide_False by (intros [_ ?]; done). by rewrite (Hkeys _ Hk).
      * rewrite !decide_False; [done| |].
        -- intros [->|Hin]%elem_of_cons; done.
        -- intros [-> _]; done.
Qed.

Lemma walk_completes w :
  P w → wf (caches w) →
  ∃ w', walk body w = (Normal tt, w') ∧ P w' ∧ wf (caches w') ∧
        ∀ name key, entry name key (caches w') = entry name key (caches w) ≫= g key.
Proof.
  intros HP Hwf.
  destruct (walk_partitions (caches w).*1 w HP Hwf) as (w' & Hrun & HP' & Hwf' & _ & Hentries);
    [by destruct Hwf|done|].
  exists w'. unfold walk, bind at 1, caches_keys. rewrite Hrun.
  split_and!; try done. intros name key. rewrite Hentries.
  destruct (decide (name ∈ (caches w).*1)) as [|Hout]; [done|].
  apply alist_lookup_None_keys in Hout. unfold entry. by rewrite Hout.
Qed.

End walk_completes.

(** ** The age sweep *)

Lemma performPeriodicCacheInvalidation_walk :
  performPeriodicCacheInvalidation =
  try_catch (walk expire_entry)
            (λ _, console_warn "Periodic cache invalidation failed:").
Proof. reflexivity. Qed.

Lemma expire_entry_spec T cache key r w :
  healthy w ∧ clock_reads T w → wf (caches w) →
  entry cache key (caches w) = Some r →
  ∃ w', expire_entry cache (mkRequest "GET" key) w = (Normal tt, w') ∧
        (healthy w' ∧ clock_reads T w') ∧ wf (caches w') ∧
        (caches w').*1 = (caches w).*1 ∧
        ∀ name' key', entry name' key' (caches w') =
          if decide (name' = cache ∧ key' = key)
          then (if age_exceeds T maxCacheAge r then None else Some r)
          else entry name' key' (caches w).
Proof.
  intros [Hhealthy Hclock] Hwf Hentry.
  unfold expire_entry, bind at 1, cache_match. simpl.
  rewrite Hhealthy, Hentry. unfold bind at 1.
  destruct (timestampOlderThan_run r maxCacheAge w)
    as (w1 & -> & Hcaches & _ & _ & Hfault & Hclock1 & _).
  rewrite Hclock.
  assert (healthy w1 ∧ clock_reads T w1) as HP1.
  { split; [intros op c k|intros n]; [rewrite Hfault|rewrite Hclock1]; auto. }
  destruct (age_exceeds T maxCacheAge r).
  - unfold bind, cache_delete, ret. rewrite (proj1 HP1). simpl.
    eexists. split; [done|]. simpl. rewrite Hcaches.
    split; [exact HP1|]. split_and!.
    + apply wf_in_cache; [|done]. intros es. apply alist_delete_NoDup.
    + apply in_cache_names.
    + intros name' key'. apply entry_in_cache_delete.
  - unfold ret. exists w1. rewrite Hcaches. split; [done|].
    split; [exact HP1|]. split_and!; try done.
    intros name' key'. destruct (decide (name' = cache ∧ key' = key)) as [[-> ->]|]; done.
Qed.

(** C4: on a store whose operations succeed, after the age sweep has run
    with the clock reading [T], an entry without a timestamp header is as it
    was, and an entry whose timestamp header reads as the number [t] is
    still in its partition, unchanged, when [T - t ≤ maxCacheAge] and is
    gone otherwise; the sweep adds no entry.  (An entry whose header does
    not read as a number is kept as well.) *)
Theorem C4_age_sweep T w :
  healthy w → wf (caches w) → clock_reads T w →
  ∃ w', performPeriodicCacheInvalidation w = (Normal tt, w') ∧
    ∀ name key,
      match entry name key (caches w) with
      | Some r =>
          (headers_get "X-Cache-Timestamp" r = None →
           entry name key (caches w') = Some r) ∧
          (∀ ts t, headers_get "X-Cache-Timestamp" r = Some ts →
                   JS.parseInt ts = Some t →
                   (T - t ≤ maxCacheAge → entry name key (caches w') = Some r) ∧
                   (T - t > maxCacheAge → entry name key (caches w') = None)) ∧
          (∀ ts, headers_get "X-Cache-Timestamp" r = Some ts →
                 JS.parseInt ts = None →
                 entry name key (caches w') = Some r)
      | None => entry name key (caches w') = None
      end.
Proof.
  intros Hhealthy Hwf Hclock.
  destruct (walk_completes expire_entry
              (λ _ r, if age_exceeds T maxCacheAge r then None else Some r)
              (λ w, healthy w ∧ clock_reads T w)
              (expire_entry_spec T) w (conj Hhealthy Hclock) Hwf)
    as (w' & Hrun & _ & _ & Hentries).
  exists w'. rewrite performPeriodicCacheInvalidation_walk.
  unfold try_catch. rewrite Hrun. split; [done|].
  intros name key. rewrite Hentries.
  destruct (entry name key (caches w)) as [r|]; [|done].
  simpl. unfold age_exceeds. split_and!.
  - by intros ->.
  - intros ts t -> Ht. simpl. rewrite Ht.
    destruct (bool_decide_reflect (T - t > maxCacheAge)); split; intros; try done; lia.
  - intros ts -> Ht. simpl. by rewrite Ht.
Qed.

(** ** The signature update *)





(** ** Invalidation *)

Lemma purge_spec url names (cs : CacheStorage) :
  purge url names cs =
  (λ p, if decide (p.1 ∈ names) then (p.1, alist_delete url p.2) else p) <$> cs.
Proof.
  unfold purge. revert cs. induction names as [|name names IH]; intros cs.
  - simpl. rewrite <- (list_fmap_id cs) at 1. by apply list_fmap_ext.
  - cbn [foldl]. rewrite IH. unfold in_cache. rewrite <- list_fmap_compose.
    apply list_fmap_ext. intros _ [n es] _. simpl.
    destruct (decide (n = name)) as [->|Hne]; simpl.
    + rewrite (decide_True (P := name ∈ name :: names)) by left.
      destruct (decide (name ∈ names)); [|done]. by rewrite alist_delete_idemp.
    + destruct (decide (n ∈ names)) as [Hin|Hout].
      * rewrite decide_True; [done|by right].
      * rewrite decide_False; [done|]. intros [->|?]%elem_of_cons; done.
Qed.

Lemma purge_all url names (cs : CacheStorage) :
  cs.*1 ⊆ names → purge url names cs = purged url cs.
Proof.
  intros Hsub. rewrite purge_spec. unfold purged.
  apply list_fmap_ext. intros i p Hp. rewrite decide_True; [done|].
  apply Hsub, list_elem_of_fmap. exists p. split; [done|].
  by eapply list_elem_of_lookup_2.
Qed.

Lemma purged_names url (cs : CacheStorage) : (purged url cs).*1 = cs.*1.
Proof. unfold purged. rewrite <- list_fmap_compose. by apply list_fmap_ext. Qed.

Lemma purged_idemp url (cs : CacheStorage) :
  purged url (purged url cs) = purged url cs.
Proof.
  unfold purged. rewrite <- list_fmap_compose. apply list_fmap_ext.
  intros _ [n es] _. simpl. by rewrite alist_delete_idemp.
Qed.

Lemma entry_purged url name (cs : CacheStorage) : entry name url (purged url cs) = None.
Proof.
  unfold entry, purged. induction cs as [|[n es] cs IH]; [done|].
  rewrite fmap_cons. simpl. destruct (decide (n = name)); [|done].
  simpl. apply alist_lookup_delete_eq.
Qed.

Lemma invalidateCache_loop url names w :
  (∀ cache, store_fault w OpDelete cache url = false) →
  names ⊆ (caches w).*1 →
  for_of names (λ cacheName,
    let* cache := caches_open cacheName in
    cache_delete cache url;; ret tt) w
  = (Normal tt, with_caches (purge url names) w).
Proof.
  revert w. induction names as [|name names IH]; intros w Hfault Hsub.
  - by destruct w.
  - destruct (alist_lookup_is_Some name (caches w)) as [es Hes]; [apply Hsub; left|].
    rewrite for_of_cons. unfold bind at 1, caches_open at 1. rewrite Hes.
    unfold bind at 1, cache_delete at 1. rewrite Hfault.
    unfold bind at 1, ret at 1. rewrite IH; [done|done|].
    simpl. rewrite in_cache_names. intros n Hn. apply Hsub. by right.
Qed.

Lemma invalidateCache_run url w :
  (∀ cache, store_fault w OpDelete cache url = false) →
  invalidateCache url w = (Normal tt, with_caches (purged url) w).
Proof.
  intros Hfault. unfold invalidateCache, bind at 1, caches_keys.
  rewrite invalidateCache_loop by done.
  unfold with_caches. by rewrite purge_all.
Qed.

(** C8: on a store whose deletions succeed, [INVALIDATE_CACHE(url)] is
    acknowledged and leaves no entry for [url] in any partition; invoked
    again on the world it produced, it is acknowledged again and that world
    is its final world too. *)
Theorem C8_invalidate_idempotent url w :
  (∀ cache, store_fault w OpDelete cache url = false) →
  ∃ w1, on_message (INVALIDATE_CACHE url) w
          = (Normal (Some (CACHE_INVALIDATED url)), w1) ∧
        on_message (INVALIDATE_CACHE url) w1
          = (Normal (Some (CACHE_INVALIDATED url)), w1) ∧
        ∀ name, entry name url (caches w1) = None.
Proof.
  intros Hfault. exists (with_caches (purged url) w). simpl.
  unfold try_catch, bind. rewrite !invalidateCache_run by done.
  split; [done|]. split; [|intros name; apply entry_purged].
  unfold with_caches. simpl. by rewrite purged_idemp.
Qed.

(** ** A walk that meets a failure

    The loop body changes nothing but the entry it is run on.  When it
    throws on one entry, the walk throws there: the entries enumerated after
    that one are as they were. *)

Lemma same_env_refl w : same_env w w.
Proof. done. Qed.

Lemma same_env_trans w1 w2 w3 : same_env w1 w2 → same_env w2 w3 → same_env w1 w3.
Proof. unfold same_env. intros (-> & -> & ->) (-> & -> & ->). done. Qed.

Section walk_aborts.

Variable body : string → Request → Task unit.

Hypothesis body_frame : ∀ cache key w,
  let w' := (body cache (mkRequest "GET" key) w).2 in
  same_env w w' ∧
  (∀ name, name ≠ cache →
     alist_lookup name (caches w') = alist_lookup name (caches w)) ∧
  (∀ key', key' ≠ key → entry cache key' (caches w') = entry cache key' (caches w)).

Variable w0 : World.
Variables (name key : string) (r : Response).

Hypothesis body_fails : ∀ w,
  same_env w0 w → entry name key (caches w) = Some r →
  ∃ e w', body name (mkRequest "GET" key) w = (Throws e, w') ∧
          same_env w w' ∧ caches w' = caches w.

Lemma walk_keys_abort keys1 keys2 w :
  same_env w0 w → key ∉ keys1 → entry name key (caches w) = Some r →
  ∃ e w', for_of (mkRequest "GET" <$> (keys1 ++ key :: keys2)) (body name) w
            = (Throws e, w') ∧
          same_env w w' ∧
          (∀ name', name' ≠ name →
             alist_lookup name' (caches w') = alist_lookup name' (caches w)) ∧
          (∀ key', key' ∉ keys1 →
             entry name key' (caches w') = entry name key' (caches w)).
Proof.
  revert w. induction keys1 as [|k keys1 IH]; intros w Henv Hfresh Hentry.
  - destruct (body_fails w Henv Hentry) as (e & w' & Hrun & Henv' & Hcaches).
    exists e, w'. rewrite app_nil_l, fmap_cons, for_of_cons, Hrun, Hcaches. done.
  - apply not_elem_of_cons in Hfresh as [Hne Hfresh].
    pose proof (body_frame name k w) as (Henv1 & Hparts1 & Hkeys1).
    rewrite <- app_comm_cons, fmap_cons, for_of_cons.
    destruct (body name (mkRequest "GET" k) w) as [[[]|e] w1] eqn:Hrun; simpl in *.
    + destruct (IH w1) as (e & w' & Hloop & Henv' & Hparts' & Hkeys');
        [by eapply same_env_trans|done|by rewrite Hkeys1|].
      exists e, w'. split; [done|]. split; [by eapply same_env_trans|]. split.
      * intros name' Hname'. by rewrite Hparts', Hparts1.
      * intros key' [Hk Hout]%not_elem_of_cons. by rewrite Hkeys', Hkeys1.
    + exists e, w1. split_and!; try done.
      intros key' [Hk Hout]%not_elem_of_cons. by apply Hkeys1.
Qed.

Lemma walk_keys_frame cache keys w :
  let w' := (for_of (mkRequest "GET" <$> keys) (body cache) w).2 in
  same_env w w' ∧
  ∀ name', name' ≠ cache →
    alist_lookup name' (caches w') = alist_lookup name' (caches w).
Proof.
  revert w. induction keys as [|k keys IH]; intros w; [done|].
  pose proof (body_frame cache k w) as (Henv1 & Hparts1 & _).
  rewrite fmap_cons, for_of_cons.
  destruct (body cache (mkRequest "GET" k) w) as [[[]|e] w1] eqn:Hrun; simpl in *.
  - destruct (IH w1) as [Henv' Hparts'].
    split; [by eapply same_env_trans|]. intros name' Hname'.
    by rewrite Hparts', Hparts1.
  - done.
Qed.

Lemma walk_partition_frame cache w :
  let w' := ((let* cache := caches_open cache in
              let* keys := cache_keys cache in
              for_of keys (body cache)) w).2 in
  same_env w w' ∧
  ∀ name', name' ≠ cache →
    alist_lookup name' (caches w') = alist_lookup name' (caches w).
Proof.
  unfold bind at 1. destruct (caches_open cache w) as [res w1] eqn:Hopen.
  assert (res = Normal cache ∧ same_env w w1 ∧
          ∀ name', name' ≠ cache →
            alist_lookup name' (caches w1) = alist_lookup name' (caches w))
    as (-> & Henv1 & Hparts1).
  { revert Hopen. unfold caches_open.
    destruct (alist_lookup cache (caches w)) eqn:Hl; intros [= <- <-]; [done|].
    split_and!; try done. intros name' Hne. simpl.
    rewrite alist_lookup_app. destruct (alist_lookup name' (caches w)); [done|].
    simpl. by rewrite decide_False. }
  unfold bind, cache_keys.
  pose proof (walk_keys_frame cache
                (default [] (alist_lookup cache (caches w1))).*1 w1) as [Henv' Hparts'].
  simpl in *. split; [by eapply same_env_trans|].
  intros name' Hne. by rewrite Hparts', Hparts1.
Qed.

Lemma walk_partitions_abort names1 names2 es1 es2 w :
  same_env w0 w → name ∉ names1 →
  alist_lookup name (caches w) = Some (es1 ++ (key, r) :: es2) →
  key ∉ es1.*1 →
  ∃ e w', for_of (names1 ++ name :: names2) (λ cacheName,
            let* cache := caches_open cacheName in
            let* keys := cache_keys cache in
            for_of keys (body cache)) w = (Throws e, w') ∧
          same_env w w' ∧
          (∀ name', name' ∉ names1 → name' ≠ name →
             alist_lookup name' (caches w') = alist_lookup name' (caches w)) ∧
          (∀ key', key' ∉ es1.*1 →
             entry name key' (caches w') = entry name key' (caches w)).
Proof.
  revert w. induction names1 as [|n names1 IH]; intros w Henv Hfresh Hpart Hkey.
  - rewrite app_nil_l, for_of_cons.
    unfold bind at 1, caches_open at 1. rewrite Hpart.
    unfold bind at 1, cache_keys at 1. rewrite Hpart. simpl.
    rewrite fmap_app, fmap_cons. simpl.
    destruct (walk_keys_abort es1.*1 es2.*1 w Henv Hkey)
      as (e & w' & -> & Henv' & Hparts' & Hkeys').
    { rewrite (entry_in_partition _ _ _ _ Hpart), alist_lookup_app.
      apply alist_lookup_None_keys in Hkey. rewrite Hkey. simpl.
      by rewrite decide_True. }
    exists e, w'. split_and!; try done. intros name' _ Hne. by apply Hparts'.
  - apply not_elem_of_cons in Hfresh as [Hne Hfresh].
    pose proof (walk_partition_frame n w) as [Henv1 Hparts1].
    rewrite <- app_comm_cons, for_of_cons.
    destruct ((let* cache := caches_open n in
               let* keys := cache_keys cache in
               for_of keys (body cache)) w) as [[[]|e] w1] eqn:Hrun; simpl in *.
    + destruct (IH w1) as (e & w' & Hloop & Henv' & Hparts' & Hkeys');
        [by eapply same_env_trans|done|by rewrite Hparts1|done|].
      exists e, w'. split; [done|]. split; [by eapply same_env_trans|].
      assert (Hsame : ∀ key', entry name key' (caches w1) = entry name key' (caches w)).
      { intros key'. unfold entry. by rewrite Hparts1. }
      split.
      * intros name' [Hn Hout]%not_elem_of_cons Hname'.
        by rewrite Hparts', Hparts1.
      * intros key' Hout. by rewrite Hkeys', Hsame.
    + exists e, w1. split_and!; try done.
      * intros name' [Hn Hout]%not_elem_of_cons Hname'. by apply Hparts1.
      * intros key' _. unfold entry. by rewrite Hparts1.
Qed.

Lemma walk_aborts before es1 es2 after warning :
  wf (caches w0) →
  caches w0 = before ++ (name, es1 ++ (key, r) :: es2) :: after →
  ∃ w', try_catch (walk body) (λ _, console_warn warning) w0 = (Normal tt, w') ∧
        console w' = console w0 ++ [warning] ∧
        (∀ key', key' ∈ key :: es2.*1 →
           entry name key' (caches w') = entry name key' (caches w0)) ∧
        (∀ name' key', name' ∈ after.*1 →
           entry name' key' (caches w') = entry name' key' (caches w0)).
Proof.
  intros [Hnames Hkeys] Hcaches.
  assert (Hsplit : (caches w0).*1 = before.*1 ++ name :: after.*1).
  { by rewrite Hcaches, fmap_app, fmap_cons. }
  rewrite Hsplit in Hnames.
  apply NoDup_app in Hnames as (_ & Hbefore & [Hname Hafter]%NoDup_cons).
  assert (Hpart : alist_lookup name (caches w0) = Some (es1 ++ (key, r) :: es2)).
  { rewrite Hcaches, alist_lookup_app.
    assert (name ∉ before.*1) as Hout.
    { intros Hin. apply (Hbefore _ Hin). left. }
    apply alist_lookup_None_keys in Hout. rewrite Hout. simpl.
    by rewrite decide_True. }
  pose proof (Hkeys _ _ Hpart) as Hnodup.
  rewrite fmap_app, fmap_cons in Hnodup. simpl in Hnodup.
  apply NoDup_app in Hnodup as (_ & Hes1 & [Hkey Hes2]%NoDup_cons).
  destruct (walk_partitions_abort before.*1 after.*1 es1 es2 w0)
    as (e & w1 & Hrun & (Hfault1 & Hclock1 & Hconsole1) & Hparts1 & Hkeys1); try done.
  { intros Hin. apply (Hbefore _ Hin). left. }
  { intros Hin. apply (Hes1 _ Hin). left. }
  eexists. unfold try_catch, walk, bind at 1, caches_keys.
  rewrite Hsplit, Hrun. unfold console_warn. split; [done|]. simpl.
  rewrite Hconsole1. split; [done|]. split.
  - intros key' Hin. apply Hkeys1. intros Hin1. by apply (Hes1 _ Hin1).
  - intros name' key' Hin. unfold entry. rewrite Hparts1; [done| |].
    + intros Hin1. apply (Hbefore _ Hin1). by right.
    + intros ->. done.
Qed.

End walk_aborts.

(** ** The sweeps and a failing entry *)

Lemma run_sweep_walk s :
  run_sweep s = try_catch (walk (sweep_body s)) (λ _, console_warn (sweep_warning s)).
Proof. by destruct s. Qed.

Lemma sweep_body_frame s cache key w :
  let w' := (sweep_body s cache (mkRequest "GET" key) w).2 in
  same_env w w' ∧
  (∀ name, name ≠ cache →
     alist_lookup name (caches w') = alist_lookup name (caches w)) ∧
  (∀ key', key' ≠ key → entry cache key' (caches w') = entry cache key' (caches w)).
Proof.
  destruct s; simpl;
    unfold expire_entry, retire_entry, timestampOlderThan, generateSignature,
      cache_match, cache_delete, date_now, bind, ret, throw, with_caches; simpl;
    repeat (case_match; simplify_eq/=);
    (split; [done|]); (split; [intros name Hne|intros key' Hne]); try done.
  all: try (rewrite alist_lookup_in_cache, decide_False by done;
            by destruct (alist_lookup name _)).
  all: rewrite entry_in_cache_delete, decide_False; [done|by intros [_ ?]].
Qed.

Lemma sweep_body_fails s T w0 name key r :
  store_fault w0 OpMatch name key = true ∨
  (store_fault w0 OpDelete name key = true ∧ clock_reads T w0 ∧
   sweep_deletes s T key r = true) →
  ∀ w, same_env w0 w → entry name key (caches w) = Some r →
  ∃ e w', sweep_body s name (mkRequest "GET" key) w = (Throws e, w') ∧
          same_env w w' ∧ caches w' = caches w.
Proof.
  intros Hfails w (Hfault & Hclock & _) Hentry.
  destruct (store_fault w OpMatch name key) eqn:Hmatch.
  { destruct s; simpl; unfold expire_entry, retire_entry, bind, cache_match; simpl;
      rewrite Hmatch; eexists _, _; (split; [done|]); by split. }
  destruct Hfails as [Hread|(Hdelete & HT & Hdeletes)]; [congruence|].
  rewrite <- Hfault in Hdelete.
  destruct s; simpl in *.
  - unfold expire_entry, bind at 1, cache_match. simpl. rewrite Hmatch, Hentry.
    unfold bind at 1.
    destruct (timestampOlderThan_run r maxCacheAge w)
      as (w1 & -> & Hcaches & _ & _ & Hfault1 & Hclock1 & _ & Hconsole1).
    rewrite Hclock, HT, Hdeletes.
    unfold bind, cache_delete. rewrite Hfault1, Hdelete.
    eexists _, _. split; [done|]. by split.
  - unfold retire_entry, bind at 1, cache_match. simpl. rewrite Hmatch, Hentry.
    unfold generateSignature, bind, date_now, ret. simpl. rewrite Hclock, HT.
    unfold signature_at in Hdeletes.
    destruct (headers_get "X-Signature" r) as [sig|]; [|done].
    rewrite Hdeletes. unfold cache_delete. simpl. rewrite Hdelete.
    eexists _, _. split; [done|]. by split.
Qed.

Lemma run_sweep_normal s w : ∃ w', run_sweep s w = (Normal tt, w').
Proof.
  rewrite run_sweep_walk. unfold try_catch.
  destruct (walk (sweep_body s) w) as [[[]|e] w1]; [eauto|].
  unfold console_warn. eauto.
Qed.

(** C6, as stated, fails: the age sweep meets an entry whose read rejects
    and, although it catches the failure, leaves the expired entry that
    comes next in place. *)
Lemma C6_counterexample :
  ¬ (∀ s T w name key r,
       wf (caches w) → clock_reads T w →
       entry name key (caches w) = Some r →
       (∀ op, store_fault w op name key = false) →
       sweep_deletes s T key r = true →
       entry name key (caches (run_sweep s w).2) = None).
Proof.
  intros H.
  pose (cs := [(STATIC_CACHE_NAME,
                [("https://app.example/a.js", stamped 1700000000000 "a");
                 ("https://app.example/b.js", stamped 1700000000000 "b")])]).
  specialize (H AgeSweep 1800000000000
                (world_of cs 1800000000000 offline
                   (λ op name key, bool_decide (key = "https://app.example/a.js")))
                STATIC_CACHE_NAME "https://app.example/b.js"
                (stamped 1700000000000 "b")).
  assert (wf cs) as Hwf.
  { split; [apply NoDup_singleton|]. intros name es. simpl.
    case_decide; [|done]. intros [= <-]. simpl.
    apply NoDup_cons. split; [|apply NoDup_singleton].
    by intros [=]%list_elem_of_singleton. }
  specialize (H Hwf (λ _, eq_refl) eq_refl (λ _, eq_refl) eq_refl).
  vm_compute in H. discriminate H.
Qed.

(** C6, amended: a sweep catches a failure while reading or deleting an
    entry and logs it, so the sweep itself completes normally; but the
    failure ends the pass: the failing entry, the entries listed after it
    in its partition and the entries of the partitions listed after that
    partition are all left as they were. *)
Theorem C6_sweep_stops_at_failure s T w before name es1 key r es2 after :
  wf (caches w) →
  caches w = before ++ (name, es1 ++ (key, r) :: es2) :: after →
  store_fault w OpMatch name key = true ∨
  (store_fault w OpDelete name key = true ∧ clock_reads T w ∧
   sweep_deletes s T key r = true) →
  (∀ w0, ∃ w0', run_sweep s w0 = (Normal tt, w0')) ∧
  ∃ w', run_sweep s w = (Normal tt, w') ∧
        console w' = console w ++ [sweep_warning s] ∧
        (∀ key', key' ∈ key :: es2.*1 →
           entry name key' (caches w') = entry name key' (caches w)) ∧
        (∀ name' key', name' ∈ after.*1 →
           entry name' key' (caches w') = entry name' key' (caches w)).
Proof.
  intros Hwf Hcaches Hfails. split; [apply run_sweep_normal|].
  rewrite run_sweep_walk.
  eapply (walk_aborts (sweep_body s) (sweep_body_frame s) w name key r); try done.
  by apply (sweep_body_fails s T).
Qed.

(** ** Checking concrete stores *)

Lemma wf_check (cs : CacheStorage) : wfb cs = true → wf cs.
Proof.
  unfold wfb. intros [Hnames Hkeys]%andb_prop. split.
  - by apply bool_decide_eq_true in Hnames.
  - intros name es Hes. rewrite forallb_forall in Hkeys.
    assert ((name, es) ∈ cs) as Hin.
    { clear Hnames Hkeys. induction cs as [|[n es'] cs IH]; [done|].
      simpl in Hes. destruct (decide (n = name)) as [->|].
      - injection Hes as ->. left.
      - right. auto. }
    apply list_elem_of_In, Hkeys in Hin. by apply bool_decide_eq_true in Hin.
Qed.

Lemma all_ok_check (cs : CacheStorage) : all_okb cs = true → all_ok cs.
Proof.
  unfold all_okb, all_ok, entry. rewrite forallb_forall. intros Hall name key r.
  destruct (alist_lookup name cs) as [es|] eqn:Hes; [|done]. simpl. intros Hr.
  assert (∀ {V} k (v : V) (l : list (string * V)),
            alist_lookup k l = Some v → In (k, v) l) as Hin.
  { intros V k v l. induction l as [|[k' v'] l IH]; [done|]. simpl.
    destruct (decide (k' = k)) as [->|]; [intros [= ->]; by left|auto]. }
  apply Hin, Hall in Hes. simpl in Hes. rewrite forallb_forall in Hes.
  by apply Hin, Hes in Hr.
Qed.

(** ** The theorems on sample worlds *)

Lemma C2_cache_first_short_circuit_witness :
  let w := world_of [(STATIC_CACHE_NAME, [(app_js, signed noon app_js "app")])]
             noon offline no_faults in
  ∃ w', handleAssetRequestWithSignatureInvalidation (mkRequest "GET" app_js) w
          = (Normal (signed noon app_js "app"), w') ∧
        fetches w' = fetches w ∧ detached w' = detached w ∧ caches w' = caches w.
Proof.
  apply (C2_cache_first_short_circuit (mkRequest "GET" app_js));
    vm_compute; reflexivity.
Defined.


Lemma C4_age_sweep_witness :
  let cs := [(STATIC_CACHE_NAME,
              [(app_js, stamped noon "old"); ("https://app.example/", plain "home")]);
             (API_CACHE_NAME, [(api_data, stamped (noon + 1) "fresh")])] in
  ∃ w', performPeriodicCacheInvalidation (world_of cs next_day offline no_faults)
          = (Normal tt, w') ∧
        entry STATIC_CACHE_NAME app_js (caches w') = None ∧
        entry STATIC_CACHE_NAME "https://app.example/" (caches w') = Some (plain "home") ∧
        entry API_CACHE_NAME api_data (caches w') = Some (stamped (noon + 1) "fresh").
Proof.
  intros cs.
  destruct (C4_age_sweep next_day (world_of cs next_day offline no_faults))
    as (w' & Hrun & Hentries).
  - intros op name key. reflexivity.
  - apply wf_check. vm_compute. reflexivity.
  - intros n. reflexivity.
  - exists w'. split; [exact Hrun|].
    pose proof (Hentries STATIC_CACHE_NAME app_js) as Hold.
    pose proof (Hentries STATIC_CACHE_NAME "https://app.example/") as Hhome.
    pose proof (Hentries API_CACHE_NAME api_data) as Hfresh.
    clear Hentries Hrun.
    change (entry STATIC_CACHE_NAME app_js (caches (world_of cs next_day offline no_faults)))
      with (Some (stamped noon "old")) in Hold.
    change (entry STATIC_CACHE_NAME "https://app.example/"
              (caches (world_of cs next_day offline no_faults)))
      with (Some (plain "home")) in Hhome.
    change (entry API_CACHE_NAME api_data (caches (world_of cs next_day offline no_faults)))
      with (Some (stamped (noon + 1) "fresh")) in Hfresh.
    cbv beta iota in Hold, Hhome, Hfresh.
    destruct Hold as (_ & Hold & _), Hhome as [Hhome _], Hfresh as (_ & Hfresh & _).
    split_and!.
    + apply (Hold (JS.toString noon) noon);
        [reflexivity|vm_compute; reflexivity|vm_compute; reflexivity].
    + apply Hhome. reflexivity.
    + apply (Hfresh (JS.toString (noon + 1)) (noon + 1));
        [reflexivity|vm_compute; reflexivity|vm_compute; discriminate].
Defined.


Lemma C6_sweep_stops_at_failure_witness :
  let cs := [(STATIC_CACHE_NAME,
              [(app_js, stamped noon "a");
               ("https://app.example/", stamped noon "home")])] in
  let w := world_of cs next_day offline (unreadable app_js) in
  ∃ w', performPeriodicCacheInvalidation w = (Normal tt, w') ∧
        console w' = ["Periodic cache invalidation failed:"] ∧
        entry STATIC_CACHE_NAME "https://app.example/" (caches w')
          = Some (stamped noon "home").
Proof.
  intros cs w.
  destruct (C6_sweep_stops_at_failure AgeSweep next_day w
              [] STATIC_CACHE_NAME [] app_js (stamped noon "a")
              [("https://app.example/", stamped noon "home")] [])
    as (_ & w' & Hrun & Hconsole & Hlater & _).
  - apply wf_check. vm_compute. reflexivity.
  - reflexivity.
  - left. reflexivity.
  - exists w'. split; [exact Hrun|]. split; [exact Hconsole|].
    rewrite (Hlater "https://app.example/").
    + vm_compute. reflexivity.
    + right. left.
Defined.


Lemma C8_invalidate_idempotent_witness :
  let cs := [(STATIC_CACHE_NAME, [(app_js, plain "app")]);
             (DYNAMIC_CACHE_NAME, [(page_v2, plain "page"); (app_js, plain "copy")])] in
  let w := world_of cs noon offline no_faults in
  ∃ w1, on_message (INVALIDATE_CACHE app_js) w
          = (Normal (Some (CACHE_INVALIDATED app_js)), w1) ∧
        on_message (INVALIDATE_CACHE app_js) w1
          = (Normal (Some (CACHE_INVALIDATED app_js)), w1) ∧
        ∀ name, entry name app_js (caches w1) = None.
Proof.
  intros cs w. apply (C8_invalidate_idempotent app_js w). intros cache. reflexivity.
Defined.


Lemma C10_only_ok_responses_are_stored_witness :
  let w := world_of [(API_CACHE_NAME, [(api_data, stamped noon "data")])]
             next_day (answering unavailable) no_faults in
  let w' := after (Handling NetworkFirstWithCacheBust (mkRequest "GET" api_data)) w in
  all_ok (caches w') ∧
  entry API_CACHE_NAME api_data (caches w') = Some (stamped noon "data").
Proof.
  intros w w'.
  destruct (C10_only_ok_responses_are_stored
              (Handling NetworkFirstWithCacheBust (mkRequest "GET" api_data)) w)
    as [Hok Hsame].
  - apply all_ok_check. vm_compute. reflexivity.
  - split; [exact Hok|]. fold w'. rewrite Hsame.
    + vm_compute. reflexivity.
    + intros r [= <-]. vm_compute. reflexivity.
Defined.

(** ** Scenarios *)

(** An asset requested with an empty store is fetched and stored with the
    signature of the current bucket; requested again in the same bucket it
    is served from the store without a second fetch; after the bucket has
    rolled over it is fetched again. *)
Example asset_scenario :
  let request := mkRequest "GET" app_js in
  let w0 := world_of [] noon (answering (plain "app")) no_faults in
  let '(first, w1) := handleAssetRequestWithSignatureInvalidation request w0 in
  let '(second, w2) := handleAssetRequestWithSignatureInvalidation request w1 in
  let later := mkWorld (caches w2) (at_time (noon + 5 * 60 * 1000)) (ticks w2)
                 (network w2) (fetches w2) (store_fault w2) (detached w2) (console w2) in
  let '(third, w3) := handleAssetRequestWithSignatureInvalidation request later in
  first = Normal (plain "app") ∧
  entry STATIC_CACHE_NAME app_js (caches w1) = Some (signed noon app_js "app") ∧
  second = Normal (signed noon app_js "app") ∧
  length (fetches w1) = 1%nat ∧ length (fetches w2) = 1%nat ∧
  third = Normal (plain "app") ∧ length (fetches w3) = 2%nat.
Proof. vm_compute. repeat split; reflexivity. Qed.

(** An API response is stored when the network answers, and served from
    the store when the network later fails. *)
Example api_scenario :
  let request := mkRequest "GET" api_data in
  let w0 := world_of [] noon (answering (plain "data")) no_faults in
  let '(first, w1) := handleApiRequestWithCacheBusting request w0 in
  let down := mkWorld (caches w1) (clock w1) (ticks w1) offline
                 (fetches w1) (store_fault w1) (detached w1) (console w1) in
  let '(second, w2) := handleApiRequestWithCacheBusting request down in
  first = Normal (plain "data") ∧
  second = Normal (stamped noon "data") ∧
  detached w2 = [].
Proof. vm_compute. repeat split; reflexivity. Qed.

(** A queued refresh that finds the network down logs a warning and
    changes no partition. *)
Example refresh_scenario :
  let w := world_of [(DYNAMIC_CACHE_NAME, [(page_v2, plain "page")])]
             noon offline no_faults in
  let '(result, w') :=
    run_detached (UpdateCacheInBackgroundWithConditionalBypass
                    (mkRequest "GET" page_v2) DYNAMIC_CACHE_NAME) w in
  result = Normal tt ∧ caches w' = caches w ∧
  console w' = ["Background cache update with conditional bypass failed:"].
Proof. vm_compute. repeat split; reflexivity. Qed.

(** * Further properties of the worker *)

(** ** Signatures and time buckets *)

Lemma string_app_inj_l (p s1 s2 : string) : p +:+ s1 = p +:+ s2 → s1 = s2.
Proof. induction p as [|a p IH]; simpl; [done|]. intros [= H]. auto. Qed.

Lemma signature_at_bucket T1 T2 key :
  signature_at T1 key = signature_at T2 key ↔
  T1 `div` (5 * 60 * 1000) = T2 `div` (5 * 60 * 1000).
Proof.
  unfold signature_at, JS.toString. split; [|by intros ->].
  intros H%string_app_inj_l%string_app_inj_l. by apply (inj pretty).
Qed.

(** X1: two signatures computed for the same URL are equal exactly when the
    two clock readings fall in the same five-minute bucket. *)
Theorem generateSignature_same_bucket url w1 w2 :
  (generateSignature url w1).1 = (generateSignature url w2).1 ↔
  clock w1 (ticks w1) `div` 300000 = clock w2 (ticks w2) `div` 300000.
Proof.
  unfold generateSignature, bind, date_now, ret. simpl.
  fold (signature_at (clock w1 (ticks w1)) url).
  fold (signature_at (clock w2 (ticks w2)) url).
  rewrite <- (signature_at_bucket _ _ url). split; [by intros [= ->]|by intros ->].
Qed.

(** ** The signature sweep on a healthy store *)

Lemma retire_entry_spec T cache key r w :
  healthy w ∧ clock_reads T w → wf (caches w) →
  entry cache key (caches w) = Some r →
  ∃ w', retire_entry cache (mkRequest "GET" key) w = (Normal tt, w') ∧
        (healthy w' ∧ clock_reads T w') ∧ wf (caches w') ∧
        (caches w').*1 = (caches w).*1 ∧
        ∀ name' key', entry name' key' (caches w') =
          if decide (name' = cache ∧ key' = key)
          then (if sweep_deletes SignatureSweep T key r then None else Some r)
          else entry name' key' (caches w).
Proof.
  intros [Hhealthy Hclock] Hwf Hentry.
  unfold retire_entry, bind at 1, cache_match. simpl.
  rewrite Hhealthy, Hentry.
  unfold generateSignature, bind at 1 2, date_now, ret at 1. simpl.
  rewrite Hclock. fold (signature_at T key).
  assert (Hkeep : ∀ n,
    let w' := mkWorld (caches w) (clock w) n (network w) (fetches w)
                (store_fault w) (detached w) (console w) in
    (healthy w' ∧ clock_reads T w') ∧ wf (caches w') ∧
    (caches w').*1 = (caches w).*1 ∧
    ∀ name' key', entry name' key' (caches w') =
      if decide (name' = cache ∧ key' = key) then Some r
      else entry name' key' (caches w)).
  { intros n. simpl. split; [done|]. split_and!; try done.
    intros name' key'. by destruct (decide (name' = cache ∧ key' = key)) as [[-> ->]|]. }
  destruct (headers_get "X-Signature" r) as [sig|]; simpl;
    [|unfold ret; eexists; split; [done|]; apply Hkeep].
  destruct (JS.truthy sig && bool_decide (sig ≠ signature_at T key));
    [|unfold ret; eexists; split; [done|]; apply Hkeep].
  unfold bind, cache_delete, ret. simpl. rewrite Hhealthy.
  eexists. split; [done|]. simpl. split; [done|]. split_and!.
  - apply wf_in_cache; [|done]. intros es. apply alist_delete_NoDup.
  - apply in_cache_names.
  - intros name' key'. apply entry_in_cache_delete.
Qed.

(** X2: on a store whose operations succeed, after the signature sweep has
    run with the clock reading [T], an entry with a stored signature that is
    not empty is still in its partition, unchanged, when that signature is
    the one computed at [T] for its URL, and is gone otherwise; an entry
    without a signature, or with an empty one, is kept; no entry is added. *)
Theorem signature_sweep T w :
  healthy w → wf (caches w) → clock_reads T w →
  ∃ w', performPeriodicSignatureInvalidation w = (Normal tt, w') ∧
    ∀ name key,
      match entry name key (caches w) with
      | Some r =>
          match headers_get "X-Signature" r with
          | Some sig =>
              (sig = "" ∨ sig = signature_at T key →
               entry name key (caches w') = Some r) ∧
              (sig ≠ "" → sig ≠ signature_at T key →
               entry name key (caches w') = None)
          | None => entry name key (caches w') = Some r
          end
      | None => entry name key (caches w') = None
      end.
Proof.
  intros Hhealthy Hwf Hclock.
  destruct (walk_completes retire_entry
              (λ key r, if sweep_deletes SignatureSweep T key r then None else Some r)
              (λ w, healthy w ∧ clock_reads T w)
              (retire_entry_spec T) w (conj Hhealthy Hclock) Hwf)
    as (w' & Hrun & _ & _ & Hentries).
  exists w'. change performPeriodicSignatureInvalidation with (run_sweep SignatureSweep).
  rewrite run_sweep_walk. unfold try_catch. simpl. rewrite Hrun. split; [done|].
  intros name key. rewrite Hentries.
  destruct (entry name key (caches w)) as [r|]; [|done]. simpl.
  destruct (headers_get "X-Signature" r) as [sig|]; [|done].
  destruct sig as [|a sig]; simpl.
  - split; [done|]. by intros [].
  - destruct (bool_decide_reflect (String a sig ≠ signature_at T key)) as [Hne|Heq].
    + split; [|done]. intros [|]; done.
    + split; [done|]. intros _ Hne. destruct Heq. done.
Qed.

(** ** Loops that keep a relation *)

Lemma for_of_preserves {A} (R : World → World → Prop) (body : A → Task unit) xs w :
  (∀ w, R w w) → (∀ w1 w2 w3, R w1 w2 → R w2 w3 → R w1 w3) →
  (∀ x w, R w (body x w).2) →
  R w (for_of xs body w).2.
Proof.
  intros Hrefl Htrans Hbody. revert w.
  induction xs as [|x xs IH]; intros w; [apply Hrefl|].
  rewrite for_of_cons. specialize (Hbody x w).
  destruct (body x w) as [[[]|e] w1]; simpl in *; [|done].
  eapply Htrans; [exact Hbody|apply IH].
Qed.

Lemma walk_preserves (R : World → World → Prop) (body : string → Request → Task unit) w :
  (∀ w, R w w) → (∀ w1 w2 w3, R w1 w2 → R w2 w3 → R w1 w3) →
  (∀ name w, R w (caches_open name w).2) →
  (∀ cache request w, R w (body cache request w).2) →
  R w (walk body w).2.
Proof.
  intros Hrefl Htrans Hopen Hbody. unfold walk, bind at 1, caches_keys.
  apply for_of_preserves; [done|done|]. clear w. intros name w.
  unfold bind at 1. specialize (Hopen name w).
  destruct (caches_open name w) as [[cache|e] w1] eqn:Ho; simpl in *; [|done].
  eapply Htrans; [exact Hopen|]. unfold bind, cache_keys.
  by apply for_of_preserves.
Qed.

Lemma caches_open_entries name w name' key' :
  entry name' key' (caches (caches_open name w).2) = entry name' key' (caches w).
Proof.
  unfold caches_open. destruct (alist_lookup name (caches w)) eqn:Hl; [done|].
  simpl. by apply entry_new_partition.
Qed.

(** ** What the sweeps never do *)

Lemma only_removes_refl w : only_removes w w.
Proof. intros name key. by left. Qed.

Lemma only_removes_trans w1 w2 w3 :
  only_removes w1 w2 → only_removes w2 w3 → only_removes w1 w3.
Proof.
  intros H12 H23 name key.
  destruct (H23 name key) as [Heq | Heq]; rewrite Heq; [apply H12|by right].
Qed.

Lemma sweep_body_only_removes s cache request w :
  only_removes w (sweep_body s cache request w).2.
Proof.
  destruct s; simpl;
    unfold expire_entry, retire_entry, timestampOlderThan, generateSignature,
      cache_match, cache_delete, date_now, bind, ret, throw, with_caches; simpl;
    repeat (case_match; simplify_eq/=); intros name key; simpl;
    try (by left).
  all: rewrite entry_in_cache_delete;
    destruct (decide (name = _ ∧ key = _)); [by right|by left].
Qed.

(** X3: whatever fails and whatever the clock reads, a sweep only removes:
    after it every entry of every partition is either as it was or gone,
    so a sweep never adds an entry and never changes a stored response. *)
Theorem sweep_only_removes s w : only_removes w (run_sweep s w).2.
Proof.
  rewrite run_sweep_walk. unfold try_catch.
  pose proof (walk_preserves only_removes (sweep_body s) w only_removes_refl
                only_removes_trans) as Hwalk.
  destruct (walk (sweep_body s) w) as [[[]|e] w1]; simpl in *.
  - apply Hwalk; [|apply sweep_body_only_removes].
    intros name w0 name' key'. left. apply caches_open_entries.
  - apply Hwalk; [|apply sweep_body_only_removes].
    intros name w0 name' key'. left. apply caches_open_entries.
Qed.

(** ** What invalidation leaves alone *)



(** ** The signature update followed by a sweep *)




(** ** Clearing and reporting *)

Lemma clear_all names (cs : CacheStorage) :
  cs.*1 ⊆ names → foldl (λ cs name, alist_delete name cs) cs names = [].
Proof.
  revert cs. induction names as [|name names IH]; intros cs Hsub.
  - destruct cs as [|[n es] cs]; [done|]. exfalso.
    apply (not_elem_of_nil n), Hsub. rewrite fmap_cons. left.
  - simpl. apply IH. intros n. rewrite alist_delete_keys.
    intros [Hne Hin]%list_elem_of_filter.
    apply Hsub in Hin. apply elem_of_cons in Hin as [->|]; done.
Qed.

Lemma clearAllCaches_loop names w :
  for_of names (λ cacheName, caches_delete cacheName;; ret tt) w
  = (Normal tt, with_caches (λ cs, foldl (λ cs name, alist_delete name cs) cs names) w).
Proof.
  revert w. induction names as [|name names IH]; intros w; [by destruct w|].
  rewrite for_of_cons. unfold bind at 1, caches_delete at 1, ret at 1. by rewrite IH.
Qed.

(** X7: [CLEAR_CACHES] is acknowledged and leaves no partition at all, and
    a [GET_CACHE_INFO] that follows is answered with an empty report and
    changes nothing. *)
Theorem clear_then_info w :
  ∃ w1, on_message CLEAR_CACHES w = (Normal (Some CACHES_CLEARED), w1) ∧
        caches w1 = [] ∧
        on_message GET_CACHE_INFO w1 = (Normal (Some (CACHE_INFO [])), w1).
Proof.
  exists (with_caches (λ _, []) w). simpl.
  unfold try_catch, bind at 1 2, clearAllCaches, bind at 1, caches_keys.
  rewrite clearAllCaches_loop. unfold with_caches. simpl.
  rewrite clear_all by done. done.
Qed.

(** X8: [getCacheInfo] changes nothing and reports, for every partition,
    the number of its entries and the URLs of its keys in their order; it
    reports nothing for a name that is not a partition. *)
Theorem getCacheInfo_reports w :
  ∃ info, getCacheInfo w = (Normal info, w) ∧
    ∀ name, alist_lookup name info
            = (λ es : Cache, (length es, es.*1)) <$> alist_lookup name (caches w).
Proof.
  unfold getCacheInfo, bind at 1, caches_keys.
  set (collect := fix collect (names : list string) := _).
  assert (Hcollect : ∀ names, names ⊆ (caches w).*1 →
    ∃ info, collect names w = (Normal info, w) ∧
      ∀ name, alist_lookup name info =
        if decide (name ∈ names)
        then (λ es : Cache, (length es, es.*1)) <$> alist_lookup name (caches w)
        else None).
  { induction names as [|n names IH]; intros Hsub.
    - exists []. split; [done|]. intros name. rewrite decide_False; [done|].
      apply not_elem_of_nil.
    - destruct IH as (info & Hrun & Hinfo); [intros x Hx; apply Hsub; by right|].
      destruct (alist_lookup_is_Some n (caches w)) as [es Hes]; [apply Hsub; left|].
      eexists. simpl. unfold bind at 1, caches_open. rewrite Hes.
      unfold bind at 1, cache_keys. rewrite Hes. simpl.
      unfold bind at 1. fold collect. rewrite Hrun. unfold ret. split; [done|].
      intros name. rewrite alist_lookup_put, Hinfo.
      destruct (decide (n = name)) as [->|Hne].
      + rewrite Hes. simpl. rewrite !length_fmap, <- list_fmap_compose.
        rewrite decide_True by left. f_equal. f_equal.
        transitivity (id <$> es.*1); [by apply list_fmap_ext|apply list_fmap_id].
      + destruct (decide (name ∈ names)) as [Hin|Hout].
        * rewrite decide_True; [done|by right].
        * rewrite decide_False; [done|]. intros [->|]%elem_of_cons; done. }
  destruct (Hcollect (caches w).*1) as (info & Hrun & Hinfo); [done|].
  exists info. split; [done|]. intros name. rewrite Hinfo.
  destruct (decide (name ∈ (caches w).*1)) as [|Hout]; [done|].
  apply alist_lookup_None_keys in Hout. by rewrite Hout.
Qed.

(** ** Activation *)

Lemma filter_ext_in {A} (P Q : A → Prop) `{!∀ x, Decision (P x)}
    `{!∀ x, Decision (Q x)} (l : list A) :
  (∀ x, x ∈ l → (P x ↔ Q x)) → filter P l = filter Q l.
Proof.
  induction l as [|x l IH]; intros Hext; [done|].
  rewrite !filter_cons. rewrite IH by (intros y Hy; apply Hext; by right).
  destruct (decide (P x)) as [HP|HP], (decide (Q x)) as [HQ|HQ]; try done.
  - destruct HQ. apply Hext; [left|done].
  - destruct HP. apply Hext; [left|done].
Qed.

Lemma filter_all {A} (P : A → Prop) `{!∀ x, Decision (P x)} (l : list A) :
  (∀ x, x ∈ l → P x) → filter P l = l.
Proof.
  induction l as [|x l IH]; intros Hall; [done|].
  rewrite filter_cons, decide_True by (apply Hall; left).
  rewrite IH; [done|]. intros y Hy. apply Hall. by right.
Qed.

Lemma activate_loop names w :
  ∃ w', for_of names (λ cacheName,
          if bool_decide (cacheName ≠ STATIC_CACHE_NAME) &&
             bool_decide (cacheName ≠ DYNAMIC_CACHE_NAME) &&
             bool_decide (cacheName ≠ API_CACHE_NAME)
          then (console_log "🗑️ Deleting old cache:";; caches_delete cacheName;; ret tt)
          else ret tt) w = (Normal tt, w') ∧
        caches w' = filter (λ p, ¬ ((p.1 ∉ current_names) ∧ (p.1 ∈ names))) (caches w) ∧
        clock w' = clock w ∧ ticks w' = ticks w ∧ network w' = network w ∧
        fetches w' = fetches w ∧ store_fault w' = store_fault w ∧
        detached w' = detached w.
Proof.
  set (body := λ cacheName : string, _).
  revert w. induction names as [|name names IH]; intros w.
  - exists w. split; [done|]. split_and!; try done.
    symmetry. apply filter_all. intros p _ [_ H]. by apply not_elem_of_nil in H.
  - rewrite for_of_cons.
    assert (Hold : bool_decide (name ≠ STATIC_CACHE_NAME) &&
                   bool_decide (name ≠ DYNAMIC_CACHE_NAME) &&
                   bool_decide (name ≠ API_CACHE_NAME) = true
                   ↔ name ∉ current_names).
    { unfold current_names. rewrite !andb_true_iff, !bool_decide_eq_true.
      rewrite !not_elem_of_cons. split; [intros [[??]?]|intros (?&?&?&_)]; split_and!;
        try done. apply not_elem_of_nil. }
    destruct (bool_decide (name ≠ STATIC_CACHE_NAME) &&
              bool_decide (name ≠ DYNAMIC_CACHE_NAME) &&
              bool_decide (name ≠ API_CACHE_NAME)) eqn:Hb.
    + assert (name ∉ current_names) as Hname by (by apply Hold).
      assert (Hstep : body name w = (Normal tt,
                with_caches (alist_delete name)
                  (mkWorld (caches w) (clock w) (ticks w) (network w) (fetches w)
                     (store_fault w) (detached w)
                     (console w ++ ["🗑️ Deleting old cache:"])))).
      { unfold body. rewrite Hb. reflexivity. }
      rewrite Hstep.
      match goal with |- context [for_of names _ ?w1] =>
        destruct (IH w1) as (w' & -> & Hcaches & Hrest) end.
      exists w'. split; [done|]. split; [|exact Hrest].
      rewrite Hcaches. simpl. unfold alist_delete. rewrite list_filter_filter.
      apply filter_ext_in. intros p _. rewrite elem_of_cons. split.
      * intros [Hkeep Hne] [Hout [Heq|Hin]]; [done|]. by apply Hkeep.
      * intros Hkeep. split.
        -- intros [Hout Hin]. apply Hkeep. split; [done|by right].
        -- intros Heq. apply Hkeep. rewrite Heq. split; [done|by left].
    + assert (¬ (name ∉ current_names)) as Hname.
      { intros H. apply Hold in H. congruence. }
      assert (Hstep : body name w = (Normal tt, w)).
      { unfold body. rewrite Hb. reflexivity. }
      rewrite Hstep.
      destruct (IH w) as (w' & -> & Hcaches & Hrest).
      exists w'. split; [done|]. split; [|exact Hrest].
      rewrite Hcaches. apply filter_ext_in. intros p _. rewrite elem_of_cons. split.
      * intros Hkeep [Hout [Heq|Hin]]; [by rewrite Heq in Hout|]. by apply Hkeep.
      * intros Hkeep [Hout Hin]. apply Hkeep. split; [done|by right].
Qed.

(** X9: activation deletes every partition whose name is not one of the
    three current names and keeps the current partitions with their entries
    and their order; it claims the clients and sets the two sweep timers,
    the age sweep every [updateCheckInterval] and the signature sweep every
    twice that; it issues no fetch. *)
Theorem activate_keeps_current w :
  ∃ w', activate w
          = (Normal [ClientsClaim; SetInterval 30000 AgeSweep;
                     SetInterval 60000 SignatureSweep], w') ∧
        caches w' = filter (λ p, p.1 ∈ current_names) (caches w) ∧
        fetches w' = fetches w.
Proof.
  unfold activate, bind at 1, console_log at 1, bind at 1, caches_keys, bind at 1.
  cbn [caches fst snd].
  match goal with |- context [for_of _ _ ?w0] =>
    destruct (activate_loop (caches w).*1 w0)
      as (w1 & -> & Hcaches & _ & _ & _ & Hfetches & _) end.
  unfold bind, console_log, startCacheBustingStrategies, bind, console_log, ret. simpl.
  eexists. split; [done|]. simpl. rewrite Hcaches, Hfetches. simpl. split; [|done].
  apply filter_ext_in. intros p Hp. split.
  - intros Hkeep. destruct (decide (p.1 ∈ current_names)) as [|Hout]; [done|].
    destruct Hkeep. split; [done|]. apply list_elem_of_fmap. by exists p.
  - intros Hin [Hout _]. done.
Qed.

(** ** Installation *)

Lemma fetch_each_run urls w :
  fetch_each urls w =
  (Normal (zip urls (network w <$> seq (length (fetches w)) (length urls))),
   mkWorld (caches w) (clock w) (ticks w) (network w)
     (fetches w ++ ((λ u, mkFetchCall u None ∅) <$> urls))
     (store_fault w) (detached w) (console w)).
Proof.
  revert w. induction urls as [|u urls IH]; intros w.
  - simpl. unfold ret. rewrite app_nil_r. by destruct w.
  - cbn [fetch_each]. unfold bind at 1, fetch_settled, try_catch, bind at 1, fetch.
    assert (Hstep : ∀ res,
      (let (c, w') :=
         (let (c, w') := match res with
                         | Resolves r => (Normal r, _)
                         | Rejects e => (Throws e, _)
                         end in
          match c with
          | Normal a => ret (Resolves a) w'
          | Throws e => (Throws e, w')
          end) in
       match c with
       | Normal a => (Normal a, w')
       | Throws e => ret (Rejects e) w'
       end) =
      (Normal res,
       mkWorld (caches w) (clock w) (ticks w) (network w)
         (fetches w ++ [mkFetchCall u None ∅])
         (store_fault w) (detached w) (console w))) by (by intros []).
    simpl. rewrite Hstep. unfold bind at 1. rewrite IH. simpl.
    unfold ret. rewrite length_app. simpl. rewrite <- app_assoc. simpl.
    replace (length (fetches w) + 1)%nat with (S (length (fetches w))) by lia.
    done.
Qed.

Lemma all_fulfilled_Some settled :
  (∀ i u res, settled !! i = Some (u, res) → ∃ r, res = Resolves r ∧ ok r = true) →
  ∃ responses, all_fulfilled settled = Some responses ∧
    responses.*1 = settled.*1 ∧
    ∀ i u r, settled !! i = Some (u, Resolves r) → responses !! i = Some (u, r).
Proof.
  induction settled as [|[u res] settled IH]; intros Hall.
  - exists []. done.
  - destruct (Hall 0%nat u res eq_refl) as (r & -> & Hok).
    destruct IH as (responses & Hresp & Hkeys & Hlookup).
    { intros i u' res' Hi. by apply (Hall (S i) u' res'). }
    exists ((u, r) :: responses). simpl. rewrite Hok, Hresp. simpl.
    split; [done|]. split; [f_equal; exact Hkeys|].
    intros [|i] u' r' Hi; simpl in *; [by simplify_eq|by apply Hlookup].
Qed.

Lemma all_fulfilled_None settled i u res :
  settled !! i = Some (u, res) →
  (∀ r, res = Resolves r → ok r = false) →
  all_fulfilled settled = None.
Proof.
  revert i. induction settled as [|[u' res'] settled IH]; intros [|i] Hi Hbad;
    simpl in *; try done.
  - simplify_eq. destruct res as [r|e]; [|done]. by rewrite (Hbad r).
  - destruct res' as [r'|e']; [|done]. destruct (ok r'); [|done].
    by rewrite (IH i).
Qed.

Lemma alist_lookup_at {V} (l : list (string * V)) i k v :
  NoDup l.*1 → l !! i = Some (k, v) → alist_lookup k l = Some v.
Proof.
  revert i. induction l as [|[k' v'] l IH]; intros i Hnodup Hi; [done|].
  rewrite fmap_cons in Hnodup. apply NoDup_cons in Hnodup as [Hfresh Hnodup].
  destruct i as [|i]; simpl in *.
  - simplify_eq. by rewrite decide_True.
  - rewrite decide_False; [by eapply IH|]. intros ->. apply Hfresh.
    apply list_elem_of_fmap. exists (k, v). split; [done|].
    by eapply list_elem_of_lookup_2.
Qed.

Lemma foldl_put_lookup {V} (kvs l : list (string * V)) key :
  NoDup kvs.*1 →
  alist_lookup key (foldl (λ es p, alist_put p.1 p.2 es) l kvs) =
  match alist_lookup key kvs with
  | Some v => Some v
  | None => alist_lookup key l
  end.
Proof.
  revert l. induction kvs as [|[k v] kvs IH]; intros l Hnodup; [done|].
  rewrite fmap_cons in Hnodup. apply NoDup_cons in Hnodup as [Hfresh Hnodup].
  cbn [foldl]. rewrite IH by done. simpl. rewrite alist_lookup_put.
  destruct (decide (k = key)) as [->|]; [|done].
  simpl in Hfresh. apply alist_lookup_None_keys in Hfresh. by rewrite Hfresh.
Qed.

Lemma static_urls_NoDup origin : NoDup (String.app origin <$> STATIC_FILES).
Proof.
  apply NoDup_fmap_2; [intros s1 s2; apply string_app_inj_l|].
  apply (bool_decide_unpack (NoDup STATIC_FILES)). by vm_compute.
Qed.

(** X10: installation issues one fetch per static file and never raises.
    When each of the five fetches resolves to an ok response and the store
    accepts the writes, every static file is stored in the static partition
    as the response the network gave for it, and the worker asks to skip
    waiting.  When one of the fetches rejects or resolves to a response
    that is not ok, nothing is stored, no entry changes and the worker does
    not ask to skip waiting. *)
Theorem install_outcome origin w :
  ∃ actions w',
    install origin w = (Normal actions, w') ∧
    length (fetches w') = (length (fetches w) + 5)%nat ∧
    ((∀ i, (i < 5)%nat →
        ∃ r, network w (length (fetches w) + i) = Resolves r ∧ ok r = true) →
     (∀ key, store_fault w OpPut STATIC_CACHE_NAME key = false) →
     actions = [SkipWaiting] ∧
     ∀ i path r,
       STATIC_FILES !! i = Some path →
       network w (length (fetches w) + i) = Resolves r →
       entry STATIC_CACHE_NAME (origin +:+ path) (caches w') = Some r) ∧
    (∀ i, (i < 5)%nat →
       (∀ r, network w (length (fetches w) + i) = Resolves r → ok r = false) →
       actions = [] ∧
       ∀ name key, entry name key (caches w') = entry name key (caches w)).
Proof.
  unfold install, bind at 1, console_log at 1, try_catch, bind at 1.
  set (w0 := mkWorld _ _ _ _ _ _ _ _).
  assert (Hopen : ∃ w1, caches_open STATIC_CACHE_NAME w0 = (Normal STATIC_CACHE_NAME, w1) ∧
            is_Some (alist_lookup STATIC_CACHE_NAME (caches w1)) ∧
            (∀ name key, entry name key (caches w1) = entry name key (caches w)) ∧
            fetches w1 = fetches w ∧ network w1 = network w ∧
            store_fault w1 = store_fault w).
  { unfold caches_open. subst w0. simpl.
    destruct (alist_lookup STATIC_CACHE_NAME (caches w)) eqn:Hl.
    - eexists. split; [done|]. simpl. rewrite Hl. eauto 10.
    - eexists. split; [done|]. simpl. split_and!; try done.
      + rewrite alist_lookup_app, Hl. simpl. rewrite ?decide_True by done. eauto.
      + intros name key. by apply entry_new_partition. }
  destruct Hopen as (w1 & -> & [es Hes] & Hentries1 & Hfetches1 & Hnetwork1 & Hfault1).
  unfold bind at 1, console_log at 1, bind at 1, cache_addAll, bind at 1.
  rewrite fetch_each_run. cbn [caches clock ticks network fetches store_fault detached console].
  rewrite Hfetches1, Hnetwork1, Hfault1, length_fmap.
  set (urls := String.app origin <$> STATIC_FILES).
  set (results := network w <$> seq (length (fetches w)) (length STATIC_FILES)).
  assert (Hsettled : ∀ i u res, zip urls results !! i = Some (u, res) →
            (i < 5)%nat ∧ urls !! i = Some u ∧ res = network w (length (fetches w) + i)).
  { intros i u res Hi. apply lookup_zip_with_Some in Hi as (u' & res' & [= <- <-] & Hu & Hres).
    unfold results in Hres. rewrite list_lookup_fmap in Hres.
    destruct (seq _ _ !! i) as [m|] eqn:Hseq; [|done].
    apply lookup_seq in Hseq as [-> Hlt]. simpl in Hres. by simplify_eq. }
  destruct (all_fulfilled (zip urls results)) as [responses|] eqn:Hall.
  - destruct (find _ responses) as [p|] eqn:Hfind.
    + (* a write is refused *)
      unfold bind, console_error, console_log, ret. simpl.
      eexists _, _. split; [done|]. simpl. rewrite length_app.
      split; [done|]. split.
      * intros _ Hput. apply find_some in Hfind as [_ Hp].
        simpl in Hp. rewrite ?Hfault1 in Hp. by rewrite Hput in Hp.
      * intros i Hi Hbad. split; [done|]. apply Hentries1.
    + (* the batch is stored *)
      unfold bind, console_log, ret. simpl.
      eexists _, _. split; [done|]. simpl. rewrite length_app.
      split; [done|]. split.
      * intros Hgood _. split; [done|]. intros i path r Hpath Hr.
        unfold entry. rewrite alist_lookup_in_cache, Hes, decide_True by done. simpl.
        destruct (all_fulfilled_Some (zip urls results)) as (rs & Hrs & Hkeys & Hat).
        { intros j u res Hj. apply Hsettled in Hj as (Hlt & _ & ->). by apply Hgood. }
        rewrite Hall in Hrs. injection Hrs as <-.
        assert (NoDup responses.*1) as Hnodup.
        { rewrite Hkeys, fst_zip; [apply static_urls_NoDup|].
          unfold urls, results. by rewrite !length_fmap, length_seq. }
        rewrite foldl_put_lookup by done.
        erewrite (alist_lookup_at responses i); [done|done|].
        apply Hat. apply lookup_zip_with_Some. eexists _, _. split; [done|]. split.
        -- unfold urls. by rewrite list_lookup_fmap, Hpath.
        -- unfold results. rewrite list_lookup_fmap, lookup_seq_lt; [simpl; by rewrite Hr|].
           by eapply lookup_lt_Some.
      * intros i Hi Hbad. exfalso.
        destruct (lookup_lt_is_Some_2 (zip urls results) i) as [[u res] Hlook].
        { unfold urls, results. rewrite length_zip, !length_fmap, length_seq. simpl. lia. }
        pose proof (Hsettled _ _ _ Hlook) as (_ & _ & ->).
        rewrite (all_fulfilled_None _ _ _ _ Hlook) in Hall; [done|].
        intros r Hr. by apply Hbad.
  - (* a fetch failed *)
    unfold throw, bind, console_error, console_log, ret. simpl.
    eexists _, _. split; [done|]. simpl. rewrite length_app.
    split; [done|]. split.
    + intros Hgood _. exfalso.
      destruct (all_fulfilled_Some (zip urls results)) as (rs & Hrs & _).
      { intros j u res Hj. apply Hsettled in Hj as (Hlt & _ & ->). by apply Hgood. }
      congruence.
    + intros i Hi Hbad. split; [done|]. apply Hentries1.
Qed.

(** ** Opening a partition *)


(** ** The default policy *)



(** ** The versioned policy without a cached entry *)



(** ** The asset policy going to the network *)







(** ** An API response stored, then served when the network fails *)



(** ** What a queued refresh does *)


(** ** Further theorems on sample worlds *)

Lemma signature_sweep_witness :
  let cs := [(STATIC_CACHE_NAME,
              [(app_js, signed noon app_js "current");
               (page_v2, signed (noon - 5 * 60 * 1000) page_v2 "stale");
               ("https://app.example/", plain "unsigned")])] in
  ∃ w', performPeriodicSignatureInvalidation (world_of cs noon offline no_faults)
          = (Normal tt, w') ∧
        entry STATIC_CACHE_NAME app_js (caches w') = Some (signed noon app_js "current") ∧
        entry STATIC_CACHE_NAME page_v2 (caches w') = None ∧
        entry STATIC_CACHE_NAME "https://app.example/" (caches w')
          = Some (plain "unsigned").
Proof.
  intros cs.
  destruct (signature_sweep noon (world_of cs noon offline no_faults))
    as (w' & Hrun & Hentries).
  - intros op name key. reflexivity.
  - apply wf_check. vm_compute. reflexivity.
  - intros n. reflexivity.
  - exists w'. split; [exact Hrun|].
    pose proof (Hentries STATIC_CACHE_NAME app_js) as Hcurrent.
    pose proof (Hentries STATIC_CACHE_NAME page_v2) as Hstale.
    pose proof (Hentries STATIC_CACHE_NAME "https://app.example/") as Hplain.
    clear Hentries Hrun.
    change (entry STATIC_CACHE_NAME app_js (caches (world_of cs noon offline no_faults)))
      with (Some (signed noon app_js "current")) in Hcurrent.
    change (entry STATIC_CACHE_NAME page_v2 (caches (world_of cs noon offline no_faults)))
      with (Some (signed (noon - 5 * 60 * 1000) page_v2 "stale")) in Hstale.
    change (entry STATIC_CACHE_NAME "https://app.example/"
              (caches (world_of cs noon offline no_faults)))
      with (Some (plain "unsigned")) in Hplain.
    cbv beta iota in Hcurrent, Hstale, Hplain.
    change (headers_get "X-Signature" (signed noon app_js "current"))
      with (Some (signature_at noon app_js)) in Hcurrent.
    change (headers_get "X-Signature" (signed (noon - 5 * 60 * 1000) page_v2 "stale"))
      with (Some (signature_at (noon - 5 * 60 * 1000) page_v2)) in Hstale.
    change (headers_get "X-Signature" (plain "unsigned")) with (@None string) in Hplain.
    cbv beta iota in Hcurrent, Hstale, Hplain.
    destruct Hcurrent as [Hcurrent _], Hstale as [_ Hstale].
    split_and!.
    + apply Hcurrent. by right.
    + apply Hstale; vm_compute; discriminate.
    + exact Hplain.
Defined.



Lemma install_outcome_witness :
  let origin := "https://app.example" in
  let w := world_of [] noon (answering (plain "file")) no_faults in
  ∃ w', install origin w = (Normal [SkipWaiting], w') ∧
        entry STATIC_CACHE_NAME "https://app.example/index.html" (caches w')
          = Some (plain "file").
Proof.
  intros origin w.
  destruct (install_outcome origin w) as (actions & w' & Hrun & _ & Hgood & _).
  destruct Hgood as [-> Hstored].
  - intros i Hi. exists (plain "file"). split; reflexivity.
  - intros key. reflexivity.
  - exists w'. split; [exact Hrun|].
    apply (Hstored 1%nat "/index.html" (plain "file")); reflexivity.
Defined.

(** ** Timestamps written and read back *)

(** X17: the staleness test made on a response that was stamped with
    [T.toString()] reads [T] back: it succeeds exactly when the clock
    reading it makes exceeds [T] by more than the limit. *)
Theorem timestamp_round_trip T limit r w :
  (timestampOlderThan
     (headers_get "X-Cache-Timestamp"
        (headers_set "X-Cache-Timestamp" (JS.toString T) r)) limit w).1
  = Normal (bool_decide (clock w (ticks w) - T > limit)).
Proof.
  destruct (timestampOlderThan_run
              (headers_set "X-Cache-Timestamp" (JS.toString T) r) limit w)
    as (w' & -> & _).
  simpl. by rewrite age_exceeds_stamped.
Qed.

(** ** The two sweeps, one after the other *)

Lemma sweep_completes s T w :
  healthy w → wf (caches w) → clock_reads T w →
  ∃ w', run_sweep s w = (Normal tt, w') ∧
        healthy w' ∧ wf (caches w') ∧ clock_reads T w' ∧
        ∀ name key, entry name key (caches w') =
          entry name key (caches w)
          ≫= λ r, if sweep_deletes s T key r then None else Some r.
Proof.
  intros Hhealthy Hwf Hclock. rewrite run_sweep_walk. unfold try_catch.
  destruct s.
  - destruct (walk_completes expire_entry
                (λ key r, if sweep_deletes AgeSweep T key r then None else Some r)
                (λ w, healthy w ∧ clock_reads T w)
                (expire_entry_spec T) w (conj Hhealthy Hclock) Hwf)
      as (w' & Hrun & [Hhealthy' Hclock'] & Hwf' & Hentries).
    exists w'. simpl. by rewrite Hrun.
  - destruct (walk_completes retire_entry
                (λ key r, if sweep_deletes SignatureSweep T key r then None else Some r)
                (λ w, healthy w ∧ clock_reads T w)
                (retire_entry_spec T) w (conj Hhealthy Hclock) Hwf)
      as (w' & Hrun & [Hhealthy' Hclock'] & Hwf' & Hentries).
    exists w'. simpl. by rewrite Hrun.
Qed.

(** X18: on a store whose operations succeed and with the clock reading
    [T], the age sweep followed by the signature sweep and the signature
    sweep followed by the age sweep leave the same entries: those that
    neither sweep deletes, unchanged. *)
Theorem sweeps_commute T w :
  healthy w → wf (caches w) → clock_reads T w →
  ∃ w1 w2 w1' w2',
    performPeriodicCacheInvalidation w = (Normal tt, w1) ∧
    performPeriodicSignatureInvalidation w1 = (Normal tt, w2) ∧
    performPeriodicSignatureInvalidation w = (Normal tt, w1') ∧
    performPeriodicCacheInvalidation w1' = (Normal tt, w2') ∧
    ∀ name key,
      entry name key (caches w2) = entry name key (caches w2') ∧
      entry name key (caches w2) =
        entry name key (caches w)
        ≫= λ r, if sweep_deletes AgeSweep T key r
                   || sweep_deletes SignatureSweep T key r
                then None else Some r.
Proof.
  intros Hhealthy Hwf Hclock.
  destruct (sweep_completes AgeSweep T w) as (w1 & Hrun1 & Hh1 & Hwf1 & Hc1 & He1);
    [done..|].
  destruct (sweep_completes SignatureSweep T w1) as (w2 & Hrun2 & _ & _ & _ & He2);
    [done..|].
  destruct (sweep_completes SignatureSweep T w) as (w1' & Hrun1' & Hh1' & Hwf1' & Hc1' & He1');
    [done..|].
  destruct (sweep_completes AgeSweep T w1') as (w2' & Hrun2' & _ & _ & _ & He2');
    [done..|].
  exists w1, w2, w1', w2'. split_and!; try done.
  intros name key. rewrite He2, He1, He2', He1'.
  destruct (entry name key (caches w)) as [r|]; [|done]. simpl.
  destruct (age_exceeds T maxCacheAge r) eqn:Hage; simpl;
    destruct (match headers_get "X-Signature" r with
              | Some sig => JS.truthy sig && bool_decide (sig ≠ signature_at T key)
              | None => false
              end) eqn:Hsig; simpl; rewrite ?Hage, ?Hsig; done.
Qed.

Lemma sweeps_commute_witness :
  let cs := [(STATIC_CACHE_NAME,
              [(app_js, signed noon app_js "app");
               (page_v2, stamped 0 "old")])] in
  let w := world_of cs noon offline no_faults in
  ∃ w1 w2 w1' w2',
    performPeriodicCacheInvalidation w = (Normal tt, w1) ∧
    performPeriodicSignatureInvalidation w1 = (Normal tt, w2) ∧
    performPeriodicSignatureInvalidation w = (Normal tt, w1') ∧
    performPeriodicCacheInvalidation w1' = (Normal tt, w2') ∧
    entry STATIC_CACHE_NAME page_v2 (caches w2)
      = entry STATIC_CACHE_NAME page_v2 (caches w2').
Proof.
  intros cs w.
  destruct (sweeps_commute noon w) as (w1 & w2 & w1' & w2' & H1 & H2 & H3 & H4 & Hsame).
  - intros op name key. reflexivity.
  - apply wf_check. vm_compute. reflexivity.
  - intros n. reflexivity.
  - exists w1, w2, w1', w2'. split_and!; try assumption.
    apply (Hsame STATIC_CACHE_NAME page_v2).
Defined.
